(** * Login rate limiting: RateLimitService and AuthService

    A shallow embedding of the two TypeScript classes of the repository,
    [RateLimitService] (attempt counting with a lazily expiring window)
    and [AuthService] (the login flow that consults it), followed by the
    properties of the rate-limit decision logic.

    Asynchronous methods are functions in a state-and-exception monad over
    a [World]: the rows of the hosted database, the fault mode of each
    remote call, the clock, and a trace of every external interaction. *)

From stdpp Require Import gmap strings pretty.
From Stdlib Require Import ZArith Lia.

Local Open Scope Z_scope.
Set Warnings "-register-all".

(** ** JavaScript values *)

(** A JavaScript number restricted to the integers, with [None] for NaN. *)
Definition Number := option Z.

(** A [Date] holds a time value in milliseconds, or NaN (Invalid Date). *)
Definition Date := option Z.

Definition MAX_TIME_VALUE : Z := 8640000000000000.

(** ECMAScript TimeClip: time values beyond 8.64e15 ms are invalid. *)
Definition TimeClip (t : Z) : Date :=
  if Z.abs t <=? MAX_TIME_VALUE then Some t else None.

(** [new Date(n)] *)
Definition new_Date (n : Number) : Date := n ≫= TimeClip.

(** [d.getTime()] *)
Definition getTime (d : Date) : Number := d.

(** [n + k] for an integer constant [k]. *)
Definition num_add (n : Number) (k : Z) : Number := (λ x, x + k) <$> n.

(** [a > b] on two dates: both are converted to numbers, and any
    comparison with NaN is false. *)
Definition date_gt (a b : Date) : bool :=
  match getTime a, getTime b with
  | Some x, Some y => x >? y
  | _, _ => false
  end.

(** [s.toLowerCase()] on a string of ASCII characters only: there the
    Unicode lowercase mapping of the runtime changes the letters A-Z and
    nothing else. On other strings the two differ, and the model of the
    two classes below does not use this function: it takes the runtime's
    [toLowerCase] as given (see [Collaborators]); the sample deployment,
    whose e-mails are ASCII, runs on this one. *)
Definition lower_ascii (c : Ascii.ascii) : Ascii.ascii :=
  let n := Ascii.nat_of_ascii c in
  if (Nat.leb 65 n && Nat.leb n 90)%bool
  then Ascii.ascii_of_nat (n + 32)%nat else c.

Fixpoint ascii_toLowerCase (s : string) : string :=
  match s with
  | EmptyString => EmptyString
  | String c s' => String (lower_ascii c) (ascii_toLowerCase s')
  end.

(** Thrown values: [AuthError(message, code, details)] of
    [@/lib/utils/errors], whose [details] here is the [originalError]
    field, and any other error. *)
Inductive JsError :=
  | AuthError (message code : string) (details : option JsError)
  | Error (message : string).

(** [e instanceof AuthError] *)
Definition instanceof_AuthError (e : JsError) : bool :=
  match e with AuthError _ _ _ => true | Error _ => false end.

Definition error_code (e : JsError) : option string :=
  match e with AuthError _ c _ => Some c | Error _ => None end.

Definition error_message (e : JsError) : string :=
  match e with AuthError m _ _ => m | Error m => m end.

(** ** Data model *)

(** [RateLimitAttempt] of [src/lib/types/rateLimit.ts]. *)
Record RateLimitAttempt := {
  attemptCount : Z;
  lastReset : Date;
  lastAttempt : Date
}.

(** The columns [attempt_count, last_reset] that [getCurrentAttempts]
    selects; [last_reset] is the column as [new Date(...)] reads it. *)
Record AttemptRow := {
  attempt_count : Z;
  last_reset : Date
}.

Definition select_attempt_columns (r : RateLimitAttempt) : AttemptRow :=
  {| attempt_count := attemptCount r; last_reset := lastReset r |}.

(** A row of the [users] table, with the columns [login] reads and the
    [last_login] column it writes. *)
Record User := {
  id : string;
  u_email : string;
  firstname : string;
  lastname : string;
  password_hash : string;
  role : option string;
  is_verified : bool;
  plan_id : option string;
  last_login : Date
}.

Definition set_last_login (t : Date) (u : User) : User :=
  {| id := id u; u_email := u_email u; firstname := firstname u;
     lastname := lastname u; password_hash := password_hash u;
     role := role u; is_verified := is_verified u; plan_id := plan_id u;
     last_login := t |}.

Record LoginInput := {
  in_email : string;
  in_password : string;
  in_deviceInfo : option string
}.

Record TokenPayload := {
  tp_userId : string;
  tp_email : string;
  tp_role : string;
  tp_planId : option string
}.

Record Tokens := {
  accessToken : string;
  refreshToken : string;
  expiresIn : Z
}.

Record UserSession := {
  us_id : string;
  us_email : string;
  us_firstName : string;
  us_lastName : string;
  us_role : string;
  us_isVerified : bool;
  us_planId : option string
}.

Record AuthResponse := {
  ar_user : UserSession;
  ar_tokens : Tokens
}.

(** The details object passed to [AuditService.logAuthEvent]. *)
Record AuditDetails := {
  ad_userId : option string;
  ad_email : string;
  ad_reason : option string;
  ad_ipAddress : string;
  ad_attemptCount : option Z
}.

(** ** The world outside the two classes *)

(** How a remote call behaves: it answers, it answers with [{ error }],
    or its promise rejects. *)
Inductive Fault :=
  | Healthy
  | ErrorReply (e : string)
  | Rejects (e : string).

(** Every interaction with something outside the two classes, in order. *)
Inductive Event :=
  | ConsoleError (label : string) (err : JsError)
  | SelectAttempts (ipAddress identifier : string)
  | RpcIncrement (ipAddress identifier : string) (p_last_attempt : Z)
  | SelectUser (by_email : string)
  | UpdateLastLogin (user_id : string) (t : Z)
  | AuditEvent (kind : string) (details : AuditDetails)
  | SetAuthTokens (t : Tokens).

Record World := {
  now : Z;
  client_ip : string;
  failed_attempts : gmap (string * string) RateLimitAttempt;
  users : gmap string User;
  attempts_read : Fault;
  attempts_rpc : Fault;
  users_store : Fault;
  cookies : option Tokens;
  trace : list Event
}.

Definition emit (e : Event) (w : World) : World :=
  {| now := now w; client_ip := client_ip w;
     failed_attempts := failed_attempts w; users := users w;
     attempts_read := attempts_read w; attempts_rpc := attempts_rpc w;
     users_store := users_store w; cookies := cookies w;
     trace := trace w ++ [e] |}.

Definition set_failed_attempts
    (t : gmap (string * string) RateLimitAttempt) (w : World) : World :=
  {| now := now w; client_ip := client_ip w;
     failed_attempts := t; users := users w;
     attempts_read := attempts_read w; attempts_rpc := attempts_rpc w;
     users_store := users_store w; cookies := cookies w;
     trace := trace w |}.

Definition set_users (u : gmap string User) (w : World) : World :=
  {| now := now w; client_ip := client_ip w;
     failed_attempts := failed_attempts w; users := u;
     attempts_read := attempts_read w; attempts_rpc := attempts_rpc w;
     users_store := users_store w; cookies := cookies w;
     trace := trace w |}.

Definition set_cookies (c : option Tokens) (w : World) : World :=
  {| now := now w; client_ip := client_ip w;
     failed_attempts := failed_attempts w; users := users w;
     attempts_read := attempts_read w; attempts_rpc := attempts_rpc w;
     users_store := users_store w; cookies := c;
     trace := trace w |}.

(** ** Promises: state and exceptions *)

Inductive Outcome (A : Type) :=
  | Return (a : A)
  | Throw (e : JsError).
Arguments Return {A} a.
Arguments Throw {A} e.

Definition Promise (A : Type) : Type := World → Outcome A * World.

Definition ret {A} (a : A) : Promise A := λ w, (Return a, w).

Definition throw {A} (e : JsError) : Promise A := λ w, (Throw e, w).

Definition bind {A B} (m : Promise A) (k : A → Promise B) : Promise B :=
  λ w, match m w with
       | (Return a, w') => k a w'
       | (Throw e, w') => (Throw e, w')
       end.

(** [try { m } catch (error) { h error }] *)
Definition try_catch {A} (m : Promise A) (h : JsError → Promise A)
    : Promise A :=
  λ w, match m w with
       | (Return a, w') => (Return a, w')
       | (Throw e, w') => h e w'
       end.

Notation "x <~ m ;; k" := (bind m (λ x, k))
  (at level 100, m at next level, right associativity).
Notation "m ;;; k" := (bind m (λ _, k))
  (at level 100, right associativity).

(** [console.error(label, error)] *)
Definition console_error (label : string) (err : JsError) : Promise unit :=
  λ w, (Return tt, emit (ConsoleError label err) w).

(** [new Date()] *)
Definition Date_now : Promise Date := λ w, (Return (TimeClip (now w)), w).

(** [d.toISOString()], which throws a RangeError on an invalid date; the
    timestamp string is carried as the time value it denotes. *)
Definition toISOString (d : Date) : Promise Z :=
  match d with
  | Some t => ret t
  | None => throw (Error "RangeError: Invalid time value")
  end.

(** [getClientIp()] of [@/lib/utils/network]. *)
Definition getClientIp : Promise string := λ w, (Return (client_ip w), w).

(** ** The database client *)

(** What an awaited query resolves to: [{ data, error }]. *)
Record Reply (A : Type) := {
  data : option A;
  error : option string
}.
Arguments data {A} r.
Arguments error {A} r.

(** [supabase.from('failed_attempts').select('attempt_count, last_reset')
      .eq('ip_address', ip).eq('identifier', id).single()];
    [single()] answers with an error when no row matches. *)
Definition select_failed_attempt (ip identifier : string)
    : Promise (Reply AttemptRow) :=
  λ w,
    let w' := emit (SelectAttempts ip identifier) w in
    match attempts_read w with
    | Rejects e => (Throw (Error e), w')
    | ErrorReply e => (Return {| data := None; error := Some e |}, w')
    | Healthy =>
        match failed_attempts w !! (ip, identifier) with
        | Some r =>
            (Return {| data := Some (select_attempt_columns r);
                       error := None |}, w')
        | None =>
            (Return {| data := None; error := Some "PGRST116" |}, w')
        end
    end.

(** [supabase.from('users').select(...).eq('email', e).single()] *)
Definition select_user (e : string) : Promise (Reply User) :=
  λ w,
    let w' := emit (SelectUser e) w in
    match users_store w with
    | Rejects err => (Throw (Error err), w')
    | ErrorReply err => (Return {| data := None; error := Some err |}, w')
    | Healthy =>
        match users w !! e with
        | Some u => (Return {| data := Some u; error := None |}, w')
        | None => (Return {| data := None; error := Some "PGRST116" |}, w')
        end
    end.

(** [supabase.from('users').update({ last_login: t }).eq('id', uid)] *)
Definition update_last_login (uid : string) (t : Z)
    : Promise (Reply unit) :=
  λ w,
    let w' := emit (UpdateLastLogin uid t) w in
    match users_store w with
    | Rejects err => (Throw (Error err), w')
    | ErrorReply err => (Return {| data := None; error := Some err |}, w')
    | Healthy =>
        (Return {| data := None; error := None |},
         set_users
           ((λ u, if bool_decide (id u = uid)
                  then set_last_login (Some t) u else u)
              <$> users w) w')
    end.

(** ** Collaborators whose code is outside the two classes *)

(** [String.prototype.toLowerCase] of the JavaScript runtime, which maps
    every cased Unicode letter and is taken as it is, whatever it does;
    [hashPassword] of [@/lib/utils/crypto]; [TokenService.generateTokens];
    the two [AUTH_ERROR_CODES] that the login flow uses; and the stored
    procedure [increment_failed_attempts], which maps the table to the
    [data] it answers and the table it leaves behind. *)
Class Collaborators := {
  toLowerCase : string → string;
  hashPassword : string → string;
  generateTokens : TokenPayload → option string → Tokens;
  INVALID_CREDENTIALS : string;
  SERVER_ERROR : string;
  increment_failed_attempts :
    string → string → Z →
    gmap (string * string) RateLimitAttempt →
    option Z * gmap (string * string) RateLimitAttempt
}.

(** Modelled from the spec: [AuditService.logAuthEvent], whose source is
    not part of the two classes. The audit sink "accepts structured
    events" and is "fire-and-forget from this component's perspective,
    failures are swallowed": the event is handed over and the call
    returns normally. *)
Definition logAuthEvent (kind : string) (details : AuditDetails)
    : Promise unit :=
  λ w, (Return tt, emit (AuditEvent kind details) w).

(** [CookieService.setAuthTokens(accessToken, refreshToken, expiresIn)] *)
Definition setAuthTokens (t : Tokens) : Promise unit :=
  λ w, (Return tt, set_cookies (Some t) (emit (SetAuthTokens t) w)).

(** ** RateLimitService *)

Module RateLimitService.

Definition MAX_ATTEMPTS : Z := 5.
Definition WINDOW_MINUTES : Z := 15.

Section Methods.
Context `{Collaborators}.

(** [supabase.rpc('increment_failed_attempts', {...})] *)
Definition rpc_increment_failed_attempts
    (ipAddress identifier : string) (p_last_attempt : Z)
    : Promise (Reply Z) :=
  λ w,
    let w' := emit (RpcIncrement ipAddress identifier p_last_attempt) w in
    match attempts_rpc w with
    | Rejects e => (Throw (Error e), w')
    | ErrorReply e => (Return {| data := None; error := Some e |}, w')
    | Healthy =>
        let '(d, t) :=
          increment_failed_attempts ipAddress identifier p_last_attempt
            (failed_attempts w) in
        (Return {| data := d; error := None |}, set_failed_attempts t w')
    end.

(** [data || 0] *)
Definition or_zero (d : option Z) : Z :=
  match d with
  | Some n => if n =? 0 then 0 else n
  | None => 0
  end.

Definition incrementAttempt (ipAddress identifier : string) : Promise Z :=
  try_catch
    (d <~ Date_now ;;
     t <~ toISOString d ;;
     r <~ rpc_increment_failed_attempts ipAddress identifier t ;;
     match error r with
     | Some e =>
         console_error "Failed to increment attempts:" (Error e) ;;;
         ret 0
     | None => ret (or_zero (data r))
     end)
    (λ e, console_error "Error in incrementAttempt:" e ;;; ret 0).

Definition getCurrentAttempts (ipAddress identifier : string) : Promise Z :=
  try_catch
    (r <~ select_failed_attempt ipAddress identifier ;;
     match error r with
     | Some e =>
         console_error "Error fetching attempts:" (Error e) ;;;
         ret 0
     | None =>
         match data r with
         | None => ret 0
         | Some d =>
             let lastReset := last_reset d in
             let windowExpiry :=
               new_Date
                 (num_add (getTime lastReset) (WINDOW_MINUTES * 60 * 1000)) in
             t <~ Date_now ;;
             if date_gt t windowExpiry then ret 0
             else ret (attempt_count d)
         end
     end)
    (λ e, console_error "Error in getCurrentAttempts:" e ;;; ret 0).

(** The two errors thrown by [checkRateLimit]. *)
Definition TooManyAttempts : JsError :=
  AuthError "Too many failed attempts. Please try again later."
            "auth/too-many-requests" None.

Definition attempts_remaining_message (remainingAttempts : Z) : string :=
  pretty remainingAttempts
    +:+ " login attempts remaining before temporary lockout.".

Definition AttemptsRemainingWarning (remainingAttempts : Z) : JsError :=
  AuthError (attempts_remaining_message remainingAttempts)
            "auth/attempts-remaining" None.

Definition checkRateLimit (ipAddress identifier : string) : Promise unit :=
  attempts <~ getCurrentAttempts ipAddress identifier ;;
  if attempts >=? MAX_ATTEMPTS then throw TooManyAttempts
  else
    let remainingAttempts := MAX_ATTEMPTS - attempts in
    if remainingAttempts <=? 2 then
      throw (AttemptsRemainingWarning remainingAttempts)
    else ret tt.

End Methods.
End RateLimitService.

(** ** AuthService *)

Module AuthService.
Import RateLimitService.

Section Methods.
Context `{Collaborators}.

Definition lockout_message : string :=
  "Too many failed login attempts. Please try again after 15 minutes.".

Definition invalid_credentials_warning (remainingAttempts : Z) : string :=
  "Invalid credentials. " +:+ pretty remainingAttempts
    +:+ " attempts remaining before temporary lockout.".

Definition handleFailedLogin (ipAddress email reason : string)
    : Promise unit :=
  try_catch
    (attempts <~ incrementAttempt ipAddress (toLowerCase email) ;;
     logAuthEvent "LOGIN_FAILED"
       {| ad_userId := None; ad_email := email; ad_reason := Some reason;
          ad_ipAddress := ipAddress; ad_attemptCount := Some attempts |} ;;;
     let remainingAttempts := 5 - attempts in
     if remainingAttempts <=? 0 then
       throw (AuthError lockout_message INVALID_CREDENTIALS None)
     else if remainingAttempts <=? 2 then
       throw (AuthError (invalid_credentials_warning remainingAttempts)
                        INVALID_CREDENTIALS None)
     else ret tt)
    (λ e,
       if instanceof_AuthError e then throw e
       else console_error "Error handling failed login:" e).

(** [user.role || 'user'] *)
Definition role_or_user (r : option string) : string :=
  match r with
  | Some s => if bool_decide (s = "") then "user" else s
  | None => "user"
  end.

Definition invalid_email_or_password : JsError :=
  AuthError "Invalid email or password" INVALID_CREDENTIALS None.

Definition login (input : LoginInput) : Promise AuthResponse :=
  let email := in_email input in
  let password := in_password input in
  let deviceInfo := in_deviceInfo input in
  try_catch
    (ipAddress <~ getClientIp ;;
     checkRateLimit ipAddress (toLowerCase email) ;;;
     let passwordHash := hashPassword password in
     r <~ select_user (toLowerCase email) ;;
     match error r, data r with
     | None, Some user =>
         if bool_decide (password_hash user ≠ passwordHash) then
           handleFailedLogin ipAddress email "Invalid password" ;;;
           throw invalid_email_or_password
         else
           let tokens :=
             generateTokens
               {| tp_userId := id user; tp_email := u_email user;
                  tp_role := role_or_user (role user);
                  tp_planId := plan_id user |} deviceInfo in
           setAuthTokens tokens ;;;
           logAuthEvent "LOGIN_SUCCESS"
             {| ad_userId := Some (id user); ad_email := u_email user;
                ad_reason := None; ad_ipAddress := ipAddress;
                ad_attemptCount := None |} ;;;
           d <~ Date_now ;;
           t <~ toISOString d ;;
           update_last_login (id user) t ;;;
           ret {| ar_user :=
                    {| us_id := id user; us_email := u_email user;
                       us_firstName := firstname user;
                       us_lastName := lastname user;
                       us_role := role_or_user (role user);
                       us_isVerified := is_verified user;
                       us_planId := plan_id user |};
                  ar_tokens := tokens |}
     | _, _ =>
         handleFailedLogin ipAddress email "User not found" ;;;
         throw invalid_email_or_password
     end)
    (λ e,
       console_error "Login error:" e ;;;
       if instanceof_AuthError e then throw e
       else throw (AuthError "Failed to log in" SERVER_ERROR (Some e))).

End Methods.
End AuthService.

(** ** Vocabulary of the properties *)

(** The window of [getCurrentAttempts], in milliseconds. *)
Definition WINDOW_MS : Z := RateLimitService.WINDOW_MINUTES * 60 * 1000.

(** The audit event of a failed login. *)
Definition login_failed_event (ip email reason : string) (attempts : Z)
    : Event :=
  AuditEvent "LOGIN_FAILED"
    {| ad_userId := None; ad_email := email; ad_reason := Some reason;
       ad_ipAddress := ip; ad_attemptCount := Some attempts |}.

(** The credential check of [login] runs and says no: the user query
    answers, and it answers with an error, with no row, or with a row
    whose hash differs from the hash of the given password. *)
Definition credentials_rejected `{Collaborators}
    (input : LoginInput) (w : World) : Prop :=
  match users_store w with
  | Rejects _ => False
  | ErrorReply _ => True
  | Healthy =>
      match users w !! toLowerCase (in_email input) with
      | None => True
      | Some u => password_hash u ≠ hashPassword (in_password input)
      end
  end.

(** [n] consecutive calls of [checkRateLimit] on one key. *)
Fixpoint check_repeatedly (n : nat) (ip identifier : string) (w : World)
    : World :=
  match n with
  | O => w
  | S n' =>
      check_repeatedly n' ip identifier
        (snd (RateLimitService.checkRateLimit ip identifier w))
  end.

(** Login requests served one after the other; the outcomes in order, and
    the world after the last. *)
Fixpoint login_in_sequence `{Collaborators}
    (inputs : list LoginInput) (w : World)
    : list (Outcome AuthResponse) * World :=
  match inputs with
  | [] => ([], w)
  | input :: rest =>
      let '(o, w1) := AuthService.login input w in
      let '(os, w2) := login_in_sequence rest w1 in
      (o :: os, w2)
  end.

(** What the catch block of [login] does with a thrown value: it logs
    it, and throws it again if it is an [AuthError], wrapped otherwise. *)
Definition login_catch `{Collaborators} (e : JsError) (w : World)
    : Outcome AuthResponse * World :=
  (Throw (if instanceof_AuthError e then e
          else AuthError "Failed to log in" SERVER_ERROR (Some e)),
   emit (ConsoleError "Login error:" e) w).

(** The session, the token payload and the audit event that [login]
    builds from a row of [users]. *)
Definition session_of (u : User) : UserSession :=
  {| us_id := id u; us_email := u_email u; us_firstName := firstname u;
     us_lastName := lastname u;
     us_role := AuthService.role_or_user (role u);
     us_isVerified := is_verified u; us_planId := plan_id u |}.

Definition token_payload_of (u : User) : TokenPayload :=
  {| tp_userId := id u; tp_email := u_email u;
     tp_role := AuthService.role_or_user (role u);
     tp_planId := plan_id u |}.

Definition login_success_event (ip : string) (u : User) : Event :=
  AuditEvent "LOGIN_SUCCESS"
    {| ad_userId := Some (id u); ad_email := u_email u; ad_reason := None;
       ad_ipAddress := ip; ad_attemptCount := None |}.

(** The reason [login] hands to [handleFailedLogin]. *)
Definition rejection_reason `{Collaborators}
    (input : LoginInput) (w : World) : string :=
  match users_store w, users w !! toLowerCase (in_email input) with
  | Healthy, Some _ => "Invalid password"
  | _, _ => "User not found"
  end.

(** The [users] table after [last_login] of the rows with id [uid] was
    set to [t]. *)
Definition stamp_last_login (uid : string) (t : Z)
    (us : gmap string User) : gmap string User :=
  (λ u, if bool_decide (id u = uid) then set_last_login (Some t) u else u)
    <$> us.

(** The number of events handed to the audit sink in a trace. *)
Definition is_audit_event (e : Event) : bool :=
  match e with AuditEvent _ _ => true | _ => false end.

Definition audit_events (tr : list Event) : nat :=
  length (List.filter is_audit_event tr).

(** A line written to the console, as opposed to a call of the database,
    the cookie service or the audit sink. *)
Definition is_console_line (e : Event) : bool :=
  match e with ConsoleError _ _ => true | _ => false end.

(** The number of calls of the stored procedure in a trace. *)
Definition is_rpc_call (e : Event) : bool :=
  match e with RpcIncrement _ _ _ => true | _ => false end.

Definition rpc_calls (tr : list Event) : nat :=
  length (List.filter is_rpc_call tr).

(** The five ways through [login]: the pre-check refuses, the user query
    rejects, the credentials are rejected, they are accepted, or they are
    accepted while the clock is not a valid date. *)
Inductive LoginPath `{Collaborators} (input : LoginInput) (w : World)
    : Prop :=
  | PrecheckRefuses e w1 :
      RateLimitService.checkRateLimit (client_ip w) (toLowerCase (in_email input)) w
      = (Throw e, w1) →
      instanceof_AuthError e = true →
      AuthService.login input w = login_catch e w1 →
      LoginPath input w
  | QueryRejects w1 err :
      RateLimitService.checkRateLimit (client_ip w) (toLowerCase (in_email input)) w
      = (Return tt, w1) →
      users_store w = Rejects err →
      AuthService.login input w =
      login_catch (Error err)
        (emit (SelectUser (toLowerCase (in_email input))) w1) →
      LoginPath input w
  | CredentialsRejected w1 o w3 :
      RateLimitService.checkRateLimit (client_ip w) (toLowerCase (in_email input)) w
      = (Return tt, w1) →
      credentials_rejected input w →
      AuthService.handleFailedLogin (client_ip w) (in_email input)
        (rejection_reason input w)
        (emit (SelectUser (toLowerCase (in_email input))) w1) = (o, w3) →
      AuthService.login input w =
      login_catch (match o with
                   | Throw e => e
                   | Return _ => AuthService.invalid_email_or_password
                   end) w3 →
      LoginPath input w
  | Accepted w1 u t :
      RateLimitService.checkRateLimit (client_ip w) (toLowerCase (in_email input)) w
      = (Return tt, w1) →
      users_store w = Healthy →
      users w !! toLowerCase (in_email input) = Some u →
      password_hash u = hashPassword (in_password input) →
      TimeClip (now w) = Some t →
      AuthService.login input w =
      (Return {| ar_user := session_of u;
                 ar_tokens := generateTokens (token_payload_of u)
                                (in_deviceInfo input) |},
       set_users (stamp_last_login (id u) t (users w))
         (emit (UpdateLastLogin (id u) t)
            (emit (login_success_event (client_ip w) u)
               (set_cookies
                  (Some (generateTokens (token_payload_of u)
                           (in_deviceInfo input)))
                  (emit (SetAuthTokens
                           (generateTokens (token_payload_of u)
                              (in_deviceInfo input)))
                     (emit (SelectUser (toLowerCase (in_email input)))
                        w1)))))) →
      LoginPath input w
  | AcceptedBadClock w1 u :
      RateLimitService.checkRateLimit (client_ip w) (toLowerCase (in_email input)) w
      = (Return tt, w1) →
      users_store w = Healthy →
      users w !! toLowerCase (in_email input) = Some u →
      password_hash u = hashPassword (in_password input) →
      TimeClip (now w) = None →
      AuthService.login input w =
      login_catch (Error "RangeError: Invalid time value")
        (emit (login_success_event (client_ip w) u)
           (set_cookies
              (Some (generateTokens (token_payload_of u)
                       (in_deviceInfo input)))
              (emit (SetAuthTokens
                       (generateTokens (token_payload_of u)
                          (in_deviceInfo input)))
                 (emit (SelectUser (toLowerCase (in_email input)))
                    w1)))) →
      LoginPath input w.

(** ** A concrete deployment, to run the model *)

(** Modelled from the spec: the stored procedure
    [increment_failed_attempts], which lives in the database and not in
    the two classes. It "atomically increments the stored counter for the
    key; if the existing record is expired, the increment starts a fresh
    window at count = 1", "updates [lastAttempt] to [now]" and "returns the
    new [attemptCount]". *)
Definition spec_increment_failed_attempts
    (ip identifier : string) (t : Z)
    (tbl : gmap (string * string) RateLimitAttempt)
    : option Z * gmap (string * string) RateLimitAttempt :=
  let fresh :=
    {| attemptCount := 1; lastReset := Some t; lastAttempt := Some t |} in
  match tbl !! (ip, identifier) with
  | Some r =>
      if date_gt (Some t)
           (new_Date (num_add (getTime (lastReset r)) WINDOW_MS))
      then (Some 1, <[(ip, identifier) := fresh]> tbl)
      else (Some (attemptCount r + 1),
            <[(ip, identifier) :=
                {| attemptCount := attemptCount r + 1;
                   lastReset := lastReset r; lastAttempt := Some t |}]> tbl)
  | None => (Some 1, <[(ip, identifier) := fresh]> tbl)
  end.

Definition sample_collaborators : Collaborators :=
  {| toLowerCase := ascii_toLowerCase;
     hashPassword := λ p, "h(" +:+ p +:+ ")";
     generateTokens := λ p _,
       {| accessToken := "access:" +:+ tp_userId p;
          refreshToken := "refresh:" +:+ tp_userId p;
          expiresIn := 3600 |};
     INVALID_CREDENTIALS := "auth/invalid-credentials";
     SERVER_ERROR := "auth/server-error";
     increment_failed_attempts := spec_increment_failed_attempts |}.

Definition alice : User :=
  {| id := "u1"; u_email := "a@b.com"; firstname := "Alice";
     lastname := "Liddell"; password_hash := "h(secret)"; role := None;
     is_verified := true; plan_id := None; last_login := None |}.

(** A world at time [t] where the key [("1.2.3.4", "a@b.com")] has the
    record [r] and every remote call answers. *)
Definition world_with (t : Z) (r : RateLimitAttempt) : World :=
  {| now := t; client_ip := "1.2.3.4";
     failed_attempts := {[ ("1.2.3.4", "a@b.com") := r ]};
     users := {[ "a@b.com" := alice ]};
     attempts_read := Healthy; attempts_rpc := Healthy;
     users_store := Healthy; cookies := None; trace := [] |}.

(** The same world while the counter store is down: reads answer with an
    error and the stored procedure call rejects. *)
Definition counter_store_down (w : World) : World :=
  {| now := now w; client_ip := client_ip w;
     failed_attempts := failed_attempts w; users := users w;
     attempts_read := ErrorReply "connection refused";
     attempts_rpc := Rejects "fetch failed";
     users_store := users_store w; cookies := cookies w;
     trace := trace w |}.

(** [n] failures counted in a window opened at time 0. *)
Definition failures (n : Z) : RateLimitAttempt :=
  {| attemptCount := n; lastReset := Some 0; lastAttempt := Some 60000 |}.

(** A record whose window start is later than its last recorded failure:
    the failure carries the caller's clock, the window start another. *)
Definition skewed_record : RateLimitAttempt :=
  {| attemptCount := 5; lastReset := Some 600000; lastAttempt := Some 0 |}.

(** A login request for Alice, with her password or with another one. *)
Definition login_as_alice (password : string) : LoginInput :=
  {| in_email := "A@b.com"; in_password := password;
     in_deviceInfo := None |}.

(** A world at time [t] with Alice registered, no attempt on record and
    every remote call answering. *)
Definition fresh_world (t : Z) : World :=
  {| now := t; client_ip := "1.2.3.4"; failed_attempts := ∅;
     users := {[ "a@b.com" := alice ]};
     attempts_read := Healthy; attempts_rpc := Healthy;
     users_store := Healthy; cookies := None; trace := [] |}.

(** The same world while the stored procedure answers with an error. *)
Definition rpc_answers_error (w : World) : World :=
  {| now := now w; client_ip := client_ip w;
     failed_attempts := failed_attempts w; users := users w;
     attempts_read := attempts_read w;
     attempts_rpc := ErrorReply "permission denied";
     users_store := users_store w; cookies := cookies w;
     trace := trace w |}.

(** The same world while the queries on [users] reject. *)
Definition users_store_down (w : World) : World :=
  {| now := now w; client_ip := client_ip w;
     failed_attempts := failed_attempts w; users := users w;
     attempts_read := attempts_read w; attempts_rpc := attempts_rpc w;
     users_store := Rejects "fetch failed"; cookies := cookies w;
     trace := trace w |}.

(** A deployment whose stored procedure answers without data. *)
Definition null_data_collaborators : Collaborators :=
  {| toLowerCase := ascii_toLowerCase;
     hashPassword := hashPassword (Collaborators := sample_collaborators);
     generateTokens := generateTokens (Collaborators := sample_collaborators);
     INVALID_CREDENTIALS := "auth/invalid-credentials";
     SERVER_ERROR := "auth/server-error";
     increment_failed_attempts := λ _ _ _ tbl, (None, tbl) |}.

(** * Properties *)

Import RateLimitService AuthService.

(** Unfolds the plumbing of promises, leaving the remote calls and the
    tests of the method under study. *)
Ltac run_promise :=
  unfold try_catch, bind, throw, ret, console_error, Date_now, toISOString,
    getClientIp, logAuthEvent.

Section RateLimitFacts.

Implicit Types (w : World) (ip identifier : string) (c : Z).

(** [checkRateLimit] is [getCurrentAttempts] followed by the two
    threshold tests. *)
Lemma checkRateLimit_unfold ip identifier w :
  checkRateLimit ip identifier w =
  match getCurrentAttempts ip identifier w with
  | (Return c, w') =>
      if c >=? MAX_ATTEMPTS then (Throw TooManyAttempts, w')
      else if MAX_ATTEMPTS - c <=? 2
           then (Throw (AttemptsRemainingWarning (MAX_ATTEMPTS - c)), w')
           else (Return tt, w')
  | (Throw e, w') => (Throw e, w')
  end.
Proof.
  unfold checkRateLimit, bind.
  destruct (getCurrentAttempts ip identifier w) as [[c|e] w']; [|done].
  unfold throw, ret. by repeat case_match.
Qed.

(** The read never throws: every path of [getCurrentAttempts] ends in a
    [return]. *)
Lemma getCurrentAttempts_returns ip identifier w :
  ∃ c, fst (getCurrentAttempts ip identifier w) = Return c.
Proof.
  unfold getCurrentAttempts, select_failed_attempt. run_promise.
  destruct (attempts_read w); simpl; eauto.
  destruct (failed_attempts w !! (ip, identifier)); simpl; eauto.
  destruct (date_gt _ _); simpl; eauto.
Qed.

(** The read leaves everything but the trace as it was. *)
Lemma getCurrentAttempts_frame ip identifier w :
  let w' := snd (getCurrentAttempts ip identifier w) in
  failed_attempts w' = failed_attempts w ∧ users w' = users w ∧
  now w' = now w ∧ client_ip w' = client_ip w ∧
  attempts_read w' = attempts_read w ∧ attempts_rpc w' = attempts_rpc w ∧
  users_store w' = users_store w ∧ cookies w' = cookies w.
Proof.
  unfold getCurrentAttempts, select_failed_attempt. run_promise.
  destruct (attempts_read w) eqn:Hf; simpl; [|done..].
  destruct (failed_attempts w !! (ip, identifier)); simpl; [|done].
  by destruct (date_gt _ _).
Qed.

Lemma checkRateLimit_world ip identifier w :
  snd (checkRateLimit ip identifier w) =
  snd (getCurrentAttempts ip identifier w).
Proof.
  rewrite checkRateLimit_unfold.
  destruct (getCurrentAttempts ip identifier w) as [[c|e] w']; [|done].
  by repeat case_match.
Qed.

Lemma checkRateLimit_frame ip identifier w :
  failed_attempts (snd (checkRateLimit ip identifier w)) = failed_attempts w.
Proof.
  rewrite checkRateLimit_world. apply getCurrentAttempts_frame.
Qed.

(** The outcome of [checkRateLimit] as a function of the effective count. *)
Lemma checkRateLimit_outcome ip identifier w c :
  fst (getCurrentAttempts ip identifier w) = Return c →
  fst (checkRateLimit ip identifier w) =
  if c >=? MAX_ATTEMPTS then Throw TooManyAttempts
  else if MAX_ATTEMPTS - c <=? 2
       then Throw (AttemptsRemainingWarning (MAX_ATTEMPTS - c))
       else Return tt.
Proof.
  intros Hc. rewrite checkRateLimit_unfold.
  destruct (getCurrentAttempts ip identifier w) as [[c'|e] w'];
    simpl in Hc; [|done].
  injection Hc as ->. by repeat case_match.
Qed.

(** A failed read counts as zero attempts. *)
Lemma getCurrentAttempts_fail_open ip identifier w :
  attempts_read w ≠ Healthy →
  fst (getCurrentAttempts ip identifier w) = Return 0.
Proof.
  intros Hf.
  unfold getCurrentAttempts, select_failed_attempt. run_promise.
  by destruct (attempts_read w).
Qed.

Lemma checkRateLimit_passes_on_failed_read ip identifier w :
  attempts_read w ≠ Healthy →
  fst (checkRateLimit ip identifier w) = Return tt.
Proof.
  intros Hf.
  by rewrite (checkRateLimit_outcome _ _ _ _
                (getCurrentAttempts_fail_open ip identifier w Hf)).
Qed.

(** A key with no record passes the pre-check. *)
Lemma checkRateLimit_no_record ip identifier w :
  failed_attempts w !! (ip, identifier) = None →
  fst (checkRateLimit ip identifier w) = Return tt.
Proof.
  intros Hnone.
  assert (fst (getCurrentAttempts ip identifier w) = Return 0) as H0.
  { unfold getCurrentAttempts, select_failed_attempt. run_promise.
    rewrite Hnone. by destruct (attempts_read w). }
  by rewrite (checkRateLimit_outcome _ _ _ _ H0).
Qed.

(** The read of a stored record whose window start is a valid date. *)
Lemma getCurrentAttempts_stored ip identifier w r t :
  attempts_read w = Healthy →
  failed_attempts w !! (ip, identifier) = Some r →
  lastReset r = Some t →
  Z.abs t ≤ MAX_TIME_VALUE →
  Z.abs (now w) ≤ MAX_TIME_VALUE →
  fst (getCurrentAttempts ip identifier w) =
  Return (if now w >? t + WINDOW_MS then 0 else attemptCount r).
Proof.
  intros Hf Hr Ht Hv Hn.
  unfold getCurrentAttempts, select_failed_attempt. run_promise.
  rewrite Hf, Hr. simpl. rewrite Ht. simpl.
  unfold date_gt, getTime, TimeClip, WINDOW_MS, WINDOW_MINUTES,
    MAX_TIME_VALUE in *.
  destruct (Z.leb_spec (Z.abs (now w)) 8640000000000000); [|lia].
  destruct (Z.leb_spec (Z.abs (t + 15 * 60 * 1000)) 8640000000000000).
  - by destruct (now w >? t + 15 * 60 * 1000).
  - destruct (Z.gtb_spec (now w) (t + 15 * 60 * 1000)); [lia|done].
Qed.

End RateLimitFacts.

(** ** The pre-check: thresholds, window, fail-open, frame *)

Section RateLimitClaims.

Implicit Types (w : World) (ip identifier : string) (c : Z).

(** C2. For a key whose effective attempt count is at least
    [MAX_ATTEMPTS] (5), [checkRateLimit] throws the too-many-attempts
    error; for a key whose effective count is below [MAX_ATTEMPTS],
    whatever it throws does not carry the too-many-requests code. *)
Theorem checkRateLimit_blocks_from_max ip identifier w c :
  fst (getCurrentAttempts ip identifier w) = Return c →
  MAX_ATTEMPTS = 5 ∧
  (MAX_ATTEMPTS ≤ c →
     fst (checkRateLimit ip identifier w) = Throw TooManyAttempts) ∧
  (c < MAX_ATTEMPTS →
     ∀ e, fst (checkRateLimit ip identifier w) = Throw e →
          error_code e ≠ Some "auth/too-many-requests").
Proof.
  intros Hc. rewrite (checkRateLimit_outcome _ _ _ _ Hc).
  split; [done|]. split; intros Hcmp.
  - destruct (Z.geb_spec c MAX_ATTEMPTS); [done|lia].
  - intros e. destruct (Z.geb_spec c MAX_ATTEMPTS); [lia|].
    destruct (MAX_ATTEMPTS - c <=? 2); [|done].
    by intros [= <-].
Qed.

Lemma checkRateLimit_blocks_from_max_witness :
  fst (checkRateLimit "1.2.3.4" "a@b.com" (world_with 120000 (failures 5)))
  = Throw TooManyAttempts.
Proof.
  apply (checkRateLimit_blocks_from_max
           "1.2.3.4" "a@b.com" (world_with 120000 (failures 5)) 5).
  - vm_compute. reflexivity.
  - vm_compute. discriminate.
Defined.

(** C3. For a stored record and a current time [now], the effective
    attempt count that [checkRateLimit] uses is 0 when [now] is strictly
    greater than [lastReset] plus the window of [WINDOW_MINUTES] minutes,
    and the stored [attemptCount] otherwise. *)
Theorem effective_count_resets_after_window ip identifier w r t :
  attempts_read w = Healthy →
  failed_attempts w !! (ip, identifier) = Some r →
  lastReset r = Some t →
  Z.abs t ≤ MAX_TIME_VALUE →
  Z.abs (now w) ≤ MAX_TIME_VALUE →
  fst (getCurrentAttempts ip identifier w) =
  Return (if now w >? t + WINDOW_MINUTES * 60 * 1000
          then 0 else attemptCount r).
Proof. apply getCurrentAttempts_stored. Qed.

Lemma effective_count_resets_after_window_witness :
  fst (getCurrentAttempts "1.2.3.4" "a@b.com"
         (world_with 900001 (failures 5))) = Return 0
  ∧ fst (getCurrentAttempts "1.2.3.4" "a@b.com"
           (world_with 900000 (failures 5))) = Return 5.
Proof.
  split.
  - apply (effective_count_resets_after_window
             "1.2.3.4" "a@b.com" (world_with 900001 (failures 5))
             (failures 5) 0);
      vm_compute; first [reflexivity | discriminate].
  - apply (effective_count_resets_after_window
             "1.2.3.4" "a@b.com" (world_with 900000 (failures 5))
             (failures 5) 0);
      vm_compute; first [reflexivity | discriminate].
Defined.

(** C4, as stated, fails: the read looks at [last_reset] only. At time
    1000000 the record [skewed_record] has a [lastAttempt] older than the
    window, yet its effective count is the stored 5. *)
Lemma stale_lastAttempt_does_not_reset :
  ¬ (∀ w ip identifier r ta tr,
       attempts_read w = Healthy →
       failed_attempts w !! (ip, identifier) = Some r →
       lastAttempt r = Some ta →
       lastReset r = Some tr →
       Z.abs ta ≤ MAX_TIME_VALUE →
       Z.abs tr ≤ MAX_TIME_VALUE →
       Z.abs (now w) ≤ MAX_TIME_VALUE →
       now w - ta > WINDOW_MINUTES * 60 * 1000 →
       fst (getCurrentAttempts ip identifier w) = Return 0).
Proof.
  intros Hclaim.
  specialize (Hclaim (world_with 1000000 skewed_record)
                "1.2.3.4" "a@b.com" skewed_record 0 600000).
  vm_compute in Hclaim.
  assert (Return 5 = Return 0) as Hbad; [|discriminate Hbad].
  apply Hclaim; first [reflexivity | discriminate].
Qed.

(** C4, amended. For a stored record whose [lastReset] is not later than
    its [lastAttempt], if [lastAttempt] is older than the window relative
    to the current time, the effective attempt count is 0 whatever the
    stored [attemptCount]. *)
Theorem stale_record_counts_zero ip identifier w r ta tr :
  attempts_read w = Healthy →
  failed_attempts w !! (ip, identifier) = Some r →
  lastAttempt r = Some ta →
  lastReset r = Some tr →
  tr ≤ ta →
  Z.abs tr ≤ MAX_TIME_VALUE →
  Z.abs (now w) ≤ MAX_TIME_VALUE →
  now w - ta > WINDOW_MINUTES * 60 * 1000 →
  fst (getCurrentAttempts ip identifier w) = Return 0.
Proof.
  intros Hf Hr _ Htr Hle Hv Hn Hold.
  rewrite (getCurrentAttempts_stored _ _ _ _ _ Hf Hr Htr Hv Hn).
  unfold WINDOW_MS.
  destruct (Z.gtb_spec (now w) (tr + WINDOW_MINUTES * 60 * 1000));
    [done|lia].
Qed.

Lemma stale_record_counts_zero_witness :
  fst (getCurrentAttempts "1.2.3.4" "a@b.com"
         (world_with 1000000 (failures 5))) = Return 0.
Proof.
  apply (stale_record_counts_zero
           "1.2.3.4" "a@b.com" (world_with 1000000 (failures 5))
           (failures 5) 60000 0);
    vm_compute; first [reflexivity | discriminate].
Defined.

(** C6. If the storage read under [checkRateLimit] fails, by an error
    reply or by a rejected promise, [checkRateLimit] does not throw: the
    count reads as 0 and the check returns normally, with neither the
    warning nor the block. *)
Theorem checkRateLimit_fail_open ip identifier w :
  attempts_read w ≠ Healthy →
  fst (getCurrentAttempts ip identifier w) = Return 0 ∧
  fst (checkRateLimit ip identifier w) = Return tt.
Proof.
  intros Hf. split.
  - by apply getCurrentAttempts_fail_open.
  - by apply checkRateLimit_passes_on_failed_read.
Qed.

Lemma checkRateLimit_fail_open_witness :
  fst (checkRateLimit "1.2.3.4" "a@b.com"
         (counter_store_down (world_with 120000 (failures 5)))) = Return tt.
Proof.
  apply (checkRateLimit_fail_open
           "1.2.3.4" "a@b.com"
           (counter_store_down (world_with 120000 (failures 5)))).
  vm_compute. discriminate.
Defined.

(** C7. [checkRateLimit] is read-only: after any number of calls on a
    key, with nothing in between, the table of attempt records is the one
    before the calls, so every key still has the same [attemptCount],
    [lastReset] and [lastAttempt]. *)
Theorem checkRateLimit_read_only n ip identifier w :
  failed_attempts (check_repeatedly n ip identifier w) = failed_attempts w
  ∧ ∀ key, failed_attempts (check_repeatedly n ip identifier w) !! key
           = failed_attempts w !! key.
Proof.
  assert (failed_attempts (check_repeatedly n ip identifier w)
          = failed_attempts w) as Heq.
  { revert w. induction n as [|n IH]; intros w; simpl; [done|].
    rewrite IH. apply checkRateLimit_frame. }
  split; [done|]. intros key. by rewrite Heq.
Qed.

(** C8. For a key whose effective attempt count in the current window is
    exactly [MAX_ATTEMPTS - 1] (4), [checkRateLimit] throws the warning
    with 1 attempt remaining, and not the too-many-attempts block. *)
Theorem checkRateLimit_last_attempt_warning ip identifier w :
  fst (getCurrentAttempts ip identifier w) = Return (MAX_ATTEMPTS - 1) →
  fst (checkRateLimit ip identifier w) = Throw (AttemptsRemainingWarning 1)
  ∧ AttemptsRemainingWarning 1 =
      AuthError "1 login attempts remaining before temporary lockout."
                "auth/attempts-remaining" None
  ∧ fst (checkRateLimit ip identifier w) ≠ Throw TooManyAttempts.
Proof.
  intros Hc. rewrite (checkRateLimit_outcome _ _ _ _ Hc).
  by vm_compute.
Qed.

Lemma checkRateLimit_last_attempt_warning_witness :
  fst (checkRateLimit "1.2.3.4" "a@b.com" (world_with 120000 (failures 4)))
  = Throw (AttemptsRemainingWarning 1).
Proof.
  apply (checkRateLimit_last_attempt_warning
           "1.2.3.4" "a@b.com" (world_with 120000 (failures 4))).
  vm_compute. reflexivity.
Defined.

End RateLimitClaims.

(** ** Recording a failure and the messages that follow *)

Section AuthFacts.
Context `{Collaborators}.

Implicit Types (w : World) (ip identifier email reason : string).

(** When the stored procedure cannot be reached, [incrementAttempt]
    returns 0: the trace gains what was called and, last, the logged
    error; the stored records stay as they were. *)
Lemma incrementAttempt_fail_open ip identifier w :
  attempts_rpc w ≠ Healthy →
  ∃ w',
    incrementAttempt ip identifier w = (Return 0, w') ∧
    failed_attempts w' = failed_attempts w ∧
    ∃ calls label err,
      trace w' = trace w ++ calls ++ [ConsoleError label err].
Proof.
  intros Hf.
  unfold incrementAttempt, rpc_increment_failed_attempts. run_promise.
  destruct (TimeClip (now w)) as [t|]; simpl.
  - destruct (attempts_rpc w) as [|e|e]; [done|..]; simpl;
      (eexists; split; [reflexivity|]; split; [done|]; simpl;
       eexists [RpcIncrement ip identifier t], _, _;
       by rewrite <- app_assoc).
  - eexists; split; [reflexivity|]; split; [done|]. simpl.
    by eexists [], _, _.
Qed.

(** The run of [incrementAttempt] when the stored procedure fails and the
    clock is a valid date: the call is made with the current time, the
    failure itself is logged under the label of the branch that caught
    it, and 0 is returned. *)
Lemma incrementAttempt_failure_run ip identifier w :
  Z.abs (now w) ≤ MAX_TIME_VALUE →
  (∀ e, attempts_rpc w = ErrorReply e →
        incrementAttempt ip identifier w =
        (Return 0,
         emit (ConsoleError "Failed to increment attempts:" (Error e))
           (emit (RpcIncrement ip identifier (now w)) w)))
  ∧ (∀ e, attempts_rpc w = Rejects e →
          incrementAttempt ip identifier w =
          (Return 0,
           emit (ConsoleError "Error in incrementAttempt:" (Error e))
             (emit (RpcIncrement ip identifier (now w)) w))).
Proof.
  intros Hv.
  assert (TimeClip (now w) = Some (now w)) as Ht.
  { unfold TimeClip.
    by destruct (Z.leb_spec (Z.abs (now w)) MAX_TIME_VALUE); [|lia]. }
  split; intros e Hf;
    unfold incrementAttempt, rpc_increment_failed_attempts; run_promise;
    rewrite Ht; simpl; by rewrite Hf.
Qed.

(** [incrementAttempt] never throws. *)
Lemma incrementAttempt_returns ip identifier w :
  ∃ n, fst (incrementAttempt ip identifier w) = Return n.
Proof.
  unfold incrementAttempt, rpc_increment_failed_attempts. run_promise.
  destruct (TimeClip (now w)) as [t|]; simpl; eauto.
  destruct (attempts_rpc w); simpl; eauto.
  destruct (increment_failed_attempts _ _ _ _); simpl; eauto.
Qed.

(** [incrementAttempt] leaves the fault modes, the users and the clock as
    they were. *)
Lemma incrementAttempt_frame ip identifier w :
  let w' := snd (incrementAttempt ip identifier w) in
  users w' = users w ∧ now w' = now w ∧
  attempts_read w' = attempts_read w ∧ attempts_rpc w' = attempts_rpc w ∧
  users_store w' = users_store w ∧ cookies w' = cookies w.
Proof.
  unfold incrementAttempt, rpc_increment_failed_attempts. run_promise.
  destruct (TimeClip (now w)) as [t|]; simpl; [|done].
  destruct (attempts_rpc w) eqn:Hf; simpl; [|done..].
  by destruct (increment_failed_attempts _ _ _ _).
Qed.

(** [handleFailedLogin] is [incrementAttempt], the audit event, and the
    two threshold tests on [5 - attempts]. *)
Lemma handleFailedLogin_unfold ip email reason w attempts w1 :
  incrementAttempt ip (toLowerCase email) w = (Return attempts, w1) →
  handleFailedLogin ip email reason w =
  (if 5 - attempts <=? 0
   then Throw (AuthError lockout_message INVALID_CREDENTIALS None)
   else if 5 - attempts <=? 2
        then Throw (AuthError (invalid_credentials_warning (5 - attempts))
                              INVALID_CREDENTIALS None)
        else Return tt,
   emit (login_failed_event ip email reason attempts) w1).
Proof.
  intros Hinc.
  unfold handleFailedLogin, try_catch, bind. rewrite Hinc.
  run_promise. unfold login_failed_event. simpl.
  destruct (5 - attempts <=? 0); simpl; [done|].
  by destruct (5 - attempts <=? 2).
Qed.

Lemma handleFailedLogin_outcome ip email reason w attempts :
  fst (incrementAttempt ip (toLowerCase email) w) = Return attempts →
  fst (handleFailedLogin ip email reason w) =
  if 5 - attempts <=? 0
  then Throw (AuthError lockout_message INVALID_CREDENTIALS None)
  else if 5 - attempts <=? 2
       then Throw (AuthError (invalid_credentials_warning (5 - attempts))
                             INVALID_CREDENTIALS None)
       else Return tt.
Proof.
  intros Hinc.
  destruct (incrementAttempt ip (toLowerCase email) w) as [o w1] eqn:Hrun.
  simpl in Hinc. subst o.
  by rewrite (handleFailedLogin_unfold _ _ reason _ _ _ Hrun).
Qed.

(** When the counter cannot be incremented, the handler is silent. *)
Lemma handleFailedLogin_silent ip email reason w :
  attempts_rpc w ≠ Healthy →
  fst (handleFailedLogin ip email reason w) = Return tt.
Proof.
  intros Hf.
  destruct (incrementAttempt_fail_open ip (toLowerCase email) w Hf)
    as (w1 & Hrun & _).
  by rewrite (handleFailedLogin_unfold _ _ reason _ _ _ Hrun).
Qed.

(** An [AuthError] thrown by the pre-check leaves [login] as it is: the
    catch block logs it and throws it again, and nothing after the
    pre-check runs. *)
Lemma login_rethrows_precheck input w e :
  fst (checkRateLimit (client_ip w) (toLowerCase (in_email input)) w)
  = Throw e →
  instanceof_AuthError e = true →
  login input w =
  (Throw e,
   emit (ConsoleError "Login error:" e)
     (snd (checkRateLimit (client_ip w) (toLowerCase (in_email input)) w))).
Proof.
  intros Hck He.
  unfold login, try_catch, bind, getClientIp.
  destruct (checkRateLimit _ _ w) as [o w1]. simpl in Hck. subst o.
  unfold console_error, throw. simpl. by rewrite He.
Qed.

(** A login whose pre-check passes and whose credentials are rejected,
    while the stored procedure is unreachable, ends in the generic
    invalid-credentials error. *)
Lemma login_rejected_during_outage input w :
  attempts_read w ≠ Healthy →
  attempts_rpc w ≠ Healthy →
  credentials_rejected input w →
  fst (login input w) = Throw invalid_email_or_password.
Proof.
  intros Hread Hrpc Hrej.
  set (ip := client_ip w). set (em := toLowerCase (in_email input)).
  pose proof (checkRateLimit_passes_on_failed_read ip em w Hread) as Hck.
  pose proof (checkRateLimit_world ip em w) as Hw1.
  pose proof (getCurrentAttempts_frame ip em w) as
    (_ & Hus & _ & _ & _ & Hrp & Hst & _).
  unfold login, try_catch, bind, getClientIp. fold ip em.
  destruct (checkRateLimit ip em w) as [o w1].
  simpl in Hck, Hw1. subst o. rewrite <- Hw1 in Hus, Hrp, Hst.
  unfold credentials_rejected in Hrej. fold em in Hrej.
  rewrite <- Hus, <- Hst in Hrej.
  assert (∀ reason,
    fst (handleFailedLogin ip (in_email input) reason
           (emit (SelectUser em) w1)) = Return tt) as Hsilent.
  { intros reason. apply handleFailedLogin_silent. simpl. congruence. }
  unfold select_user.
  destruct (users_store w1) as [|err|err]; [|simpl|done].
  - destruct (users w1 !! em) as [u|]; simpl.
    + rewrite bool_decide_true by done.
      specialize (Hsilent "Invalid password").
      destruct (handleFailedLogin _ _ _ _) as [o w2].
      simpl in Hsilent. by subst o.
    + specialize (Hsilent "User not found").
      destruct (handleFailedLogin _ _ _ _) as [o w2].
      simpl in Hsilent. by subst o.
  - specialize (Hsilent "User not found").
    destruct (handleFailedLogin _ _ _ _) as [o w2].
    simpl in Hsilent. by subst o.
Qed.

End AuthFacts.

Section AuthClaims.
Context `{Collaborators}.

Implicit Types (w : World) (ip identifier email reason : string).

(** In the warning band the pre-check throws the warning, with the number
    of attempts that remain. *)
Lemma checkRateLimit_warns ip identifier w c :
  fst (getCurrentAttempts ip identifier w) = Return c →
  c < MAX_ATTEMPTS →
  MAX_ATTEMPTS - c ≤ 2 →
  fst (checkRateLimit ip identifier w) =
  Throw (AttemptsRemainingWarning (MAX_ATTEMPTS - c)).
Proof.
  intros Hc Hlt Hband. rewrite (checkRateLimit_outcome _ _ _ _ Hc).
  destruct (Z.geb_spec c MAX_ATTEMPTS); [lia|].
  destruct (Z.leb_spec (MAX_ATTEMPTS - c) 2); [done|lia].
Qed.

(** In the warning band [login] ends with the warning of the pre-check:
    the world it leaves is the one after the pre-check plus the logged
    error, so neither the user query nor the counter was reached. *)
Lemma login_stops_at_warning input w c :
  let ip := client_ip w in
  let identifier := toLowerCase (in_email input) in
  fst (getCurrentAttempts ip identifier w) = Return c →
  c < MAX_ATTEMPTS →
  MAX_ATTEMPTS - c ≤ 2 →
  login input w =
  (Throw (AttemptsRemainingWarning (MAX_ATTEMPTS - c)),
   emit (ConsoleError "Login error:"
           (AttemptsRemainingWarning (MAX_ATTEMPTS - c)))
     (snd (getCurrentAttempts ip identifier w))).
Proof.
  intros ip identifier Hc Hlt Hband.
  rewrite <- checkRateLimit_world.
  apply login_rethrows_precheck; [|done].
  by apply checkRateLimit_warns.
Qed.

(** From the third counted failure on, [login] ends in the error of the
    pre-check and leaves the counter where it was: through [login] alone
    the count does not grow past the start of the warning band. *)
Lemma login_blocked_in_and_above_band input w c :
  let ip := client_ip w in
  let identifier := toLowerCase (in_email input) in
  fst (getCurrentAttempts ip identifier w) = Return c →
  MAX_ATTEMPTS - 2 ≤ c →
  (∃ e, fst (login input w) = Throw e ∧ instanceof_AuthError e = true
        ∧ fst (checkRateLimit ip identifier w) = Throw e) ∧
  failed_attempts (snd (login input w)) = failed_attempts w.
Proof.
  intros ip identifier Hc Hband.
  assert (∃ e, fst (checkRateLimit ip identifier w) = Throw e
               ∧ instanceof_AuthError e = true) as (e & Hck & He).
  { rewrite (checkRateLimit_outcome _ _ _ _ Hc).
    destruct (c >=? MAX_ATTEMPTS); [by eexists|].
    destruct (Z.leb_spec (MAX_ATTEMPTS - c) 2); [by eexists|lia]. }
  rewrite (login_rethrows_precheck input w e Hck He). simpl.
  split; [by exists e|]. apply checkRateLimit_frame.
Qed.

(** C5. If the storage operation under [incrementAttempt] fails, by an
    error reply or by a rejected promise, [incrementAttempt] does not
    throw: it returns 0 and logs the failure, while the stored records
    stay as they were. With a valid clock the run is known in full: the
    stored procedure was called on this key with the current time, and
    what follows in the trace is one [console.error] line that carries
    the error of the store itself, under "Failed to increment attempts:"
    for an error reply and under "Error in incrementAttempt:" for a
    rejected promise. *)
Theorem incrementAttempt_storage_failure ip identifier w :
  attempts_rpc w ≠ Healthy →
  (fst (incrementAttempt ip identifier w) = Return 0 ∧
   (∃ calls label err,
      trace (snd (incrementAttempt ip identifier w)) =
      trace w ++ calls ++ [ConsoleError label err]) ∧
   failed_attempts (snd (incrementAttempt ip identifier w))
   = failed_attempts w)
  ∧ (Z.abs (now w) ≤ MAX_TIME_VALUE →
     (∀ e, attempts_rpc w = ErrorReply e →
           incrementAttempt ip identifier w =
           (Return 0,
            emit (ConsoleError "Failed to increment attempts:" (Error e))
              (emit (RpcIncrement ip identifier (now w)) w)))
     ∧ (∀ e, attempts_rpc w = Rejects e →
             incrementAttempt ip identifier w =
             (Return 0,
              emit (ConsoleError "Error in incrementAttempt:" (Error e))
                (emit (RpcIncrement ip identifier (now w)) w)))).
Proof.
  intros Hf. split.
  - destruct (incrementAttempt_fail_open ip identifier w Hf)
      as (w' & -> & Htbl & Htrace).
    by repeat split.
  - apply incrementAttempt_failure_run.
Qed.

(** C9. After [incrementAttempt] returns [attempts], the handler works
    with [remaining = MAX_ATTEMPTS - attempts] and ends in exactly one of
    three ways: for [remaining <= 0] it throws the lockout message, which
    states the window of [WINDOW_MINUTES] minutes; for
    [0 < remaining <= 2] it throws the warning whose message contains
    [remaining]; for [remaining > 2] it returns with no message. *)
Theorem handleFailedLogin_three_outcomes ip email reason w attempts :
  fst (incrementAttempt ip (toLowerCase email) w) = Return attempts →
  let remaining := MAX_ATTEMPTS - attempts in
  (remaining ≤ 0 →
     fst (handleFailedLogin ip email reason w) =
     Throw (AuthError lockout_message INVALID_CREDENTIALS None)) ∧
  (0 < remaining ≤ 2 →
     fst (handleFailedLogin ip email reason w) =
     Throw (AuthError (invalid_credentials_warning remaining)
                      INVALID_CREDENTIALS None)) ∧
  (2 < remaining → fst (handleFailedLogin ip email reason w) = Return tt) ∧
  lockout_message =
    "Too many failed login attempts. Please try again after "
      +:+ pretty WINDOW_MINUTES +:+ " minutes." ∧
  invalid_credentials_warning remaining =
    "Invalid credentials. " +:+ pretty remaining
      +:+ " attempts remaining before temporary lockout.".
Proof.
  intros Hinc remaining.
  rewrite (handleFailedLogin_outcome _ _ reason _ _ Hinc).
  fold MAX_ATTEMPTS. fold remaining.
  repeat split.
  - intros Hr. by destruct (Z.leb_spec remaining 0); [|lia].
  - intros [Hr0 Hr2].
    destruct (Z.leb_spec remaining 0); [lia|].
    by destruct (Z.leb_spec remaining 2); [|lia].
  - intros Hr.
    destruct (Z.leb_spec remaining 0); [lia|].
    by destruct (Z.leb_spec remaining 2); [lia|].
Qed.

(** C10. When [incrementAttempt] returns its storage-failure value 0, the
    handler works with [remaining = 5] and throws neither the lockout
    error nor the warning; so while the counter store is down, a login
    whose credentials are rejected ends in the generic
    invalid-credentials error, whose message is not the lockout one. *)
Theorem outage_gives_generic_error input ip email reason w :
  (fst (incrementAttempt ip (toLowerCase email) w) = Return 0 →
     MAX_ATTEMPTS - 0 = 5 ∧
     fst (handleFailedLogin ip email reason w) = Return tt) ∧
  (attempts_read w ≠ Healthy →
   attempts_rpc w ≠ Healthy →
   credentials_rejected input w →
     fst (login input w) = Throw invalid_email_or_password ∧
     error_message invalid_email_or_password = "Invalid email or password" ∧
     error_message invalid_email_or_password ≠ lockout_message).
Proof.
  split.
  - intros Hinc. split; [done|].
    by rewrite (handleFailedLogin_outcome _ _ reason _ _ Hinc).
  - intros Hread Hrpc Hrej. split; [|done].
    by apply login_rejected_during_outage.
Qed.

End AuthClaims.

(** ** The claims on the concrete deployment *)

Section Scenarios.

#[local] Existing Instance sample_collaborators.

Lemma incrementAttempt_storage_failure_witness :
  incrementAttempt "1.2.3.4" "a@b.com"
    (counter_store_down (world_with 120000 (failures 4)))
  = (Return 0,
     emit (ConsoleError "Error in incrementAttempt:" (Error "fetch failed"))
       (emit (RpcIncrement "1.2.3.4" "a@b.com" 120000)
          (counter_store_down (world_with 120000 (failures 4)))))
  ∧ incrementAttempt "1.2.3.4" "a@b.com"
      (rpc_answers_error (world_with 120000 (failures 4)))
    = (Return 0,
       emit (ConsoleError "Failed to increment attempts:"
               (Error "permission denied"))
         (emit (RpcIncrement "1.2.3.4" "a@b.com" 120000)
            (rpc_answers_error (world_with 120000 (failures 4))))).
Proof.
  split.
  - refine (proj2 (proj2 (incrementAttempt_storage_failure
                            "1.2.3.4" "a@b.com"
                            (counter_store_down
                               (world_with 120000 (failures 4))) _) _)
              "fetch failed" _);
      vm_compute; first [reflexivity | discriminate].
  - refine (proj1 (proj2 (incrementAttempt_storage_failure
                            "1.2.3.4" "a@b.com"
                            (rpc_answers_error
                               (world_with 120000 (failures 4))) _) _)
              "permission denied" _);
      vm_compute; first [reflexivity | discriminate].
Defined.

Lemma handleFailedLogin_three_outcomes_witness :
  fst (handleFailedLogin "1.2.3.4" "A@b.com" "Invalid password"
         (world_with 120000 (failures 4)))
  = Throw (AuthError lockout_message "auth/invalid-credentials" None)
  ∧ fst (handleFailedLogin "1.2.3.4" "A@b.com" "Invalid password"
           (world_with 120000 (failures 3)))
    = Throw (AuthError
               "Invalid credentials. 1 attempts remaining before temporary lockout."
               "auth/invalid-credentials" None)
  ∧ fst (handleFailedLogin "1.2.3.4" "A@b.com" "Invalid password"
           (world_with 120000 (failures 1)))
    = Return tt.
Proof.
  split; [|split].
  - refine (proj1 (handleFailedLogin_three_outcomes
                     "1.2.3.4" "A@b.com" "Invalid password"
                     (world_with 120000 (failures 4)) 5 _) _);
      vm_compute; first [reflexivity | discriminate].
  - refine (proj1 (proj2 (handleFailedLogin_three_outcomes
                            "1.2.3.4" "A@b.com" "Invalid password"
                            (world_with 120000 (failures 3)) 4 _)) _);
      vm_compute; first [reflexivity | split; [reflexivity|discriminate]].
  - refine (proj1 (proj2 (proj2 (handleFailedLogin_three_outcomes
                                   "1.2.3.4" "A@b.com" "Invalid password"
                                   (world_with 120000 (failures 1)) 2 _))) _);
      vm_compute; reflexivity.
Defined.

Lemma outage_gives_generic_error_witness :
  fst (handleFailedLogin "1.2.3.4" "A@b.com" "Invalid password"
         (counter_store_down (world_with 120000 (failures 4))))
  = Return tt
  ∧ fst (login (login_as_alice "wrong")
           (counter_store_down (world_with 120000 (failures 4))))
    = Throw (AuthError "Invalid email or password"
                       "auth/invalid-credentials" None).
Proof.
  split.
  - refine (proj2 (proj1 (outage_gives_generic_error
                            (login_as_alice "wrong") "1.2.3.4" "A@b.com"
                            "Invalid password"
                            (counter_store_down
                               (world_with 120000 (failures 4)))) _)).
    vm_compute. reflexivity.
  - refine (proj1 (proj2 (outage_gives_generic_error
                            (login_as_alice "wrong") "1.2.3.4" "A@b.com"
                            "Invalid password"
                            (counter_store_down
                               (world_with 120000 (failures 4)))) _ _ _));
      vm_compute; discriminate.
Defined.

(** C1, on the code. Three failures are on record inside the window, and
    Alice logs in with her own password. The pre-check throws the warning
    for 2 remaining attempts, as the claim says; but [login] does not go
    on to verify the credentials: it throws that warning itself, and its
    trace holds the counter read and the logged error only, with no user
    query, no token and no cookie. *)
Theorem login_aborts_on_warning :
  let w := world_with 120000 (failures 3) in
  fst (getCurrentAttempts "1.2.3.4" "a@b.com" w) = Return 3
  ∧ users w !! "a@b.com" = Some alice
  ∧ password_hash alice = hashPassword "secret"
  ∧ fst (checkRateLimit "1.2.3.4" "a@b.com" w)
    = Throw (AttemptsRemainingWarning (MAX_ATTEMPTS - 3))
  ∧ fst (login (login_as_alice "secret") w)
    = Throw (AuthError
               "2 login attempts remaining before temporary lockout."
               "auth/attempts-remaining" None)
  ∧ trace (snd (login (login_as_alice "secret") w))
    = [SelectAttempts "1.2.3.4" "a@b.com";
       ConsoleError "Login error:" (AttemptsRemainingWarning 2)]
  ∧ cookies (snd (login (login_as_alice "secret") w)) = None.
Proof. vm_compute. by repeat split. Qed.

(** Served one after the other from an empty counter: three logins with
    a wrong password, a fourth, and then one with the right password. The
    third failure announces two remaining attempts; the pre-check then
    stops the fourth and the fifth request alike, and the count stays 3. *)
Example warning_band_stops_every_login :
  let run :=
    login_in_sequence
      [login_as_alice "x"; login_as_alice "x"; login_as_alice "x";
       login_as_alice "x"; login_as_alice "secret"] (fresh_world 1000) in
  fst run =
    [Throw (AuthError "Invalid email or password"
                      "auth/invalid-credentials" None);
     Throw (AuthError "Invalid email or password"
                      "auth/invalid-credentials" None);
     Throw (AuthError
              "Invalid credentials. 2 attempts remaining before temporary lockout."
              "auth/invalid-credentials" None);
     Throw (AttemptsRemainingWarning 2);
     Throw (AttemptsRemainingWarning 2)]
  ∧ attemptCount <$> failed_attempts (snd run) !! ("1.2.3.4", "a@b.com")
    = Some 3.
Proof. vm_compute. done. Qed.

(** Five failures on record and sixteen minutes gone: the pre-check
    passes, and Alice logs in. *)
Example expired_window_admits_login :
  let w := world_with (16 * 60 * 1000) (failures 5) in
  fst (checkRateLimit "1.2.3.4" "a@b.com" w) = Return tt
  ∧ ar_tokens <$> (match fst (login (login_as_alice "secret") w) with
                   | Return r => Some r
                   | Throw _ => None
                   end)
    = Some {| accessToken := "access:u1"; refreshToken := "refresh:u1";
              expiresIn := 3600 |}.
Proof. vm_compute. done. Qed.

End Scenarios.

(** * Further properties of the two classes *)

(** ** The pre-check in full *)

Section RateLimitMore.

Implicit Types (w : World) (ip identifier : string) (c : Z).

(** The world after the pre-check, field by field. *)
Lemma checkRateLimit_frame_all ip identifier w :
  let w' := snd (checkRateLimit ip identifier w) in
  failed_attempts w' = failed_attempts w ∧ users w' = users w ∧
  now w' = now w ∧ client_ip w' = client_ip w ∧
  attempts_read w' = attempts_read w ∧ attempts_rpc w' = attempts_rpc w ∧
  users_store w' = users_store w ∧ cookies w' = cookies w.
Proof. rewrite checkRateLimit_world. apply getCurrentAttempts_frame. Qed.

(** The read adds its own call to the trace first. *)
Lemma getCurrentAttempts_trace ip identifier w :
  ∃ rest,
    trace (snd (getCurrentAttempts ip identifier w)) =
    trace w ++ SelectAttempts ip identifier :: rest.
Proof.
  unfold getCurrentAttempts, select_failed_attempt. run_promise.
  destruct (attempts_read w); simpl.
  - destruct (failed_attempts w !! (ip, identifier)); simpl.
    + destruct (date_gt _ _); simpl; by eexists.
    + eexists. by rewrite <- app_assoc.
  - eexists. by rewrite <- app_assoc.
  - eexists. by rewrite <- app_assoc.
Qed.

(** The pre-check lets a request through exactly when the effective count
    is at most 2: the warning band belongs to the refusals. *)
Theorem checkRateLimit_admits_iff ip identifier w c :
  fst (getCurrentAttempts ip identifier w) = Return c →
  fst (checkRateLimit ip identifier w) = Return tt ↔ c ≤ MAX_ATTEMPTS - 3.
Proof.
  intros Hc. rewrite (checkRateLimit_outcome _ _ _ _ Hc).
  unfold MAX_ATTEMPTS.
  destruct (Z.geb_spec c 5); [split; [done|lia]|].
  destruct (Z.leb_spec (5 - c) 2); split; (done || lia).
Qed.

Lemma checkRateLimit_admits_iff_witness :
  fst (checkRateLimit "1.2.3.4" "a@b.com" (world_with 120000 (failures 2)))
  = Return tt.
Proof.
  apply (checkRateLimit_admits_iff
           "1.2.3.4" "a@b.com" (world_with 120000 (failures 2)) 2).
  - vm_compute. reflexivity.
  - vm_compute. discriminate.
Defined.

(** Whatever the pre-check throws is one of three [AuthError]s: the block,
    or the warning for 1 or for 2 remaining attempts. *)
Theorem checkRateLimit_throws_one_of_three ip identifier w e :
  fst (checkRateLimit ip identifier w) = Throw e →
  e = TooManyAttempts ∨ e = AttemptsRemainingWarning 1
  ∨ e = AttemptsRemainingWarning 2.
Proof.
  destruct (getCurrentAttempts_returns ip identifier w) as [c Hc].
  rewrite (checkRateLimit_outcome _ _ _ _ Hc). unfold MAX_ATTEMPTS.
  destruct (Z.geb_spec c 5); [intros [= <-]; by left|].
  destruct (Z.leb_spec (5 - c) 2); [|done].
  intros [= <-]. right.
  assert (5 - c = 1 ∨ 5 - c = 2) as [-> | ->] by lia; [by left|by right].
Qed.

Lemma checkRateLimit_throws_one_of_three_witness :
  AttemptsRemainingWarning 1 = TooManyAttempts
  ∨ AttemptsRemainingWarning 1 = AttemptsRemainingWarning 1
  ∨ AttemptsRemainingWarning 1 = AttemptsRemainingWarning 2.
Proof.
  apply (checkRateLimit_throws_one_of_three
           "1.2.3.4" "a@b.com" (world_with 120000 (failures 4))).
  vm_compute. reflexivity.
Defined.

Lemma getCurrentAttempts_zero_or_stored_aux ip identifier w :
  fst (getCurrentAttempts ip identifier w) = Return 0
  ∨ ∃ r, attempts_read w = Healthy
         ∧ failed_attempts w !! (ip, identifier) = Some r
         ∧ fst (getCurrentAttempts ip identifier w)
           = Return (attemptCount r).
Proof.
  unfold getCurrentAttempts, select_failed_attempt. run_promise.
  destruct (attempts_read w) eqn:Hf; simpl; [|by left..].
  destruct (failed_attempts w !! (ip, identifier)) as [r|] eqn:Hr; simpl;
    [|by left].
  destruct (date_gt _ _); simpl; [by left|right; by exists r].
Qed.

(** The count that the read returns is 0 or the stored [attemptCount] of
    that very key; it never throws and never invents another number. *)
Theorem getCurrentAttempts_zero_or_stored ip identifier w :
  fst (getCurrentAttempts ip identifier w) = Return 0
  ∨ ∃ r, attempts_read w = Healthy
         ∧ failed_attempts w !! (ip, identifier) = Some r
         ∧ fst (getCurrentAttempts ip identifier w)
           = Return (attemptCount r).
Proof. apply getCurrentAttempts_zero_or_stored_aux. Qed.

(** A record whose [last_reset] is an invalid date never expires: the
    comparison with NaN is false at every time, so the stored count
    stands. *)
Theorem invalid_last_reset_never_expires ip identifier w r :
  attempts_read w = Healthy →
  failed_attempts w !! (ip, identifier) = Some r →
  lastReset r = None →
  fst (getCurrentAttempts ip identifier w) = Return (attemptCount r).
Proof.
  intros Hf Hr Hnone.
  unfold getCurrentAttempts, select_failed_attempt. run_promise.
  rewrite Hf, Hr. simpl. rewrite Hnone. simpl.
  unfold date_gt. simpl. by destruct (TimeClip (now w)).
Qed.

Lemma invalid_last_reset_never_expires_witness :
  fst (getCurrentAttempts "1.2.3.4" "a@b.com"
         (world_with 8000000000000000
            {| attemptCount := 5; lastReset := None;
               lastAttempt := Some 0 |})) = Return 5.
Proof.
  apply (invalid_last_reset_never_expires
           "1.2.3.4" "a@b.com"
           (world_with 8000000000000000
              {| attemptCount := 5; lastReset := None;
                 lastAttempt := Some 0 |})
           {| attemptCount := 5; lastReset := None; lastAttempt := Some 0 |});
    vm_compute; reflexivity.
Defined.

(** A key without a record passes the pre-check, whatever the state of
    the store. *)
Theorem checkRateLimit_admits_unknown_key ip identifier w :
  failed_attempts w !! (ip, identifier) = None →
  fst (getCurrentAttempts ip identifier w) = Return 0
  ∧ fst (checkRateLimit ip identifier w) = Return tt.
Proof.
  intros Hnone. split; [|by apply checkRateLimit_no_record].
  destruct (getCurrentAttempts_zero_or_stored_aux ip identifier w)
    as [H0 | (r & _ & Hr & _)]; [done|congruence].
Qed.

End RateLimitMore.

(** ** Counting a failure *)

Section CountingMore.
Context `{Collaborators}.

Implicit Types (w : World) (ip identifier email reason : string).

Lemma rpc_calls_app (a b : list Event) :
  rpc_calls (a ++ b) = (rpc_calls a + rpc_calls b)%nat.
Proof. unfold rpc_calls. by rewrite List.filter_app, length_app. Qed.

Lemma audit_events_app (a b : list Event) :
  audit_events (a ++ b) = (audit_events a + audit_events b)%nat.
Proof. unfold audit_events. by rewrite List.filter_app, length_app. Qed.

(** Neither the read nor [incrementAttempt] reaches the audit sink. *)
Lemma getCurrentAttempts_no_audit ip identifier w :
  audit_events (trace (snd (getCurrentAttempts ip identifier w)))
  = audit_events (trace w).
Proof.
  unfold getCurrentAttempts, select_failed_attempt. run_promise.
  destruct (attempts_read w); simpl.
  - destruct (failed_attempts w !! (ip, identifier)); simpl.
    + destruct (date_gt _ _); simpl; rewrite audit_events_app;
        unfold audit_events; simpl; lia.
    + rewrite !audit_events_app. unfold audit_events. simpl. lia.
  - rewrite !audit_events_app. unfold audit_events. simpl. lia.
  - rewrite !audit_events_app. unfold audit_events. simpl. lia.
Qed.

Lemma incrementAttempt_no_audit ip identifier w :
  audit_events (trace (snd (incrementAttempt ip identifier w)))
  = audit_events (trace w).
Proof.
  unfold incrementAttempt, rpc_increment_failed_attempts. run_promise.
  destruct (TimeClip (now w)) as [t|]; simpl.
  - destruct (attempts_rpc w); simpl.
    + destruct (increment_failed_attempts _ _ _ _); simpl.
      rewrite audit_events_app. unfold audit_events. simpl. lia.
    + rewrite !audit_events_app. unfold audit_events. simpl. lia.
    + rewrite !audit_events_app. unfold audit_events. simpl. lia.
  - rewrite audit_events_app. unfold audit_events. simpl. lia.
Qed.

(** The run of [incrementAttempt] when the stored procedure answers and
    the clock is a valid date. *)
Lemma incrementAttempt_healthy ip identifier w t :
  attempts_rpc w = Healthy →
  TimeClip (now w) = Some t →
  incrementAttempt ip identifier w =
  (Return (or_zero (fst (increment_failed_attempts ip identifier t
                           (failed_attempts w)))),
   set_failed_attempts
     (snd (increment_failed_attempts ip identifier t (failed_attempts w)))
     (emit (RpcIncrement ip identifier t) w)).
Proof.
  intros Hf Ht.
  unfold incrementAttempt, rpc_increment_failed_attempts. run_promise.
  rewrite Ht. simpl. rewrite Hf.
  by destruct (increment_failed_attempts _ _ _ _).
Qed.

Lemma TimeClip_valid (t : Z) :
  Z.abs t ≤ MAX_TIME_VALUE → TimeClip t = Some t.
Proof.
  intros Hv. unfold TimeClip.
  by destruct (Z.leb_spec (Z.abs t) MAX_TIME_VALUE); [|lia].
Qed.

(** The read calls no stored procedure. *)
Lemma getCurrentAttempts_no_rpc ip identifier w :
  rpc_calls (trace (snd (getCurrentAttempts ip identifier w)))
  = rpc_calls (trace w).
Proof.
  unfold getCurrentAttempts, select_failed_attempt. run_promise.
  destruct (attempts_read w); simpl.
  - destruct (failed_attempts w !! (ip, identifier)); simpl.
    + destruct (date_gt _ _); simpl; rewrite rpc_calls_app;
        unfold rpc_calls; simpl; lia.
    + rewrite !rpc_calls_app. unfold rpc_calls. simpl. lia.
  - rewrite !rpc_calls_app. unfold rpc_calls. simpl. lia.
  - rewrite !rpc_calls_app. unfold rpc_calls. simpl. lia.
Qed.

(** A count other than 0 comes from the store. *)
Lemma incrementAttempt_nonzero ip identifier w n :
  fst (incrementAttempt ip identifier w) = Return n →
  n ≠ 0 →
  attempts_rpc w = Healthy
  ∧ fst (increment_failed_attempts ip identifier (now w)
           (failed_attempts w)) = Some n.
Proof.
  unfold incrementAttempt, rpc_increment_failed_attempts. run_promise.
  unfold TimeClip.
  destruct (Z.abs (now w) <=? MAX_TIME_VALUE); simpl;
    [|intros [= <-]; done].
  destruct (attempts_rpc w); simpl; [|intros [= <-]; done..].
  destruct (increment_failed_attempts _ _ _ _) as [[d|] tbl]; simpl;
    [|intros [= <-]; done].
  destruct (Z.eqb_spec d 0); intros [= <-]; done.
Qed.

(** [incrementAttempt] never throws, whatever the store, the clock and
    the stored procedure do; and a result other than 0 is the number the
    stored procedure answered with for this key at the current time. *)
Theorem incrementAttempt_total_and_honest ip identifier w :
  ∃ n, fst (incrementAttempt ip identifier w) = Return n
       ∧ (n ≠ 0 →
            attempts_rpc w = Healthy
            ∧ fst (increment_failed_attempts ip identifier (now w)
                     (failed_attempts w)) = Some n).
Proof.
  destruct (incrementAttempt_returns ip identifier w) as [n Hn].
  exists n. split; [done|]. by apply incrementAttempt_nonzero.
Qed.

(** A stored procedure that answers with no data, or with 0, gives the
    same 0 as an outage, but nothing is logged: the call is the only new
    entry of the trace. *)
Theorem incrementAttempt_null_data_is_silent ip identifier w :
  attempts_rpc w = Healthy →
  Z.abs (now w) ≤ MAX_TIME_VALUE →
  or_zero (fst (increment_failed_attempts ip identifier (now w)
                  (failed_attempts w))) = 0 →
  fst (incrementAttempt ip identifier w) = Return 0
  ∧ trace (snd (incrementAttempt ip identifier w))
    = trace w ++ [RpcIncrement ip identifier (now w)].
Proof.
  intros Hf Hv Hz.
  rewrite (incrementAttempt_healthy _ _ _ _ Hf (TimeClip_valid _ Hv)).
  simpl. by rewrite Hz.
Qed.

(** The handler always reaches the audit sink: the world it leaves is the
    one after [incrementAttempt] plus one LOGIN_FAILED event, which carries
    the e-mail as typed, the reason and the count just returned. *)
Lemma handleFailedLogin_world ip email reason w :
  ∃ attempts w1,
    incrementAttempt ip (toLowerCase email) w = (Return attempts, w1)
    ∧ snd (handleFailedLogin ip email reason w)
      = emit (login_failed_event ip email reason attempts) w1.
Proof.
  destruct (incrementAttempt_returns ip (toLowerCase email) w) as [n Hn].
  destruct (incrementAttempt ip (toLowerCase email) w) as [o w1] eqn:Hrun.
  simpl in Hn. subst o. exists n, w1. split; [done|].
  by rewrite (handleFailedLogin_unfold _ _ reason _ _ _ Hrun).
Qed.

(** What the handler throws is an [AuthError] with the
    invalid-credentials code, no details, and one of three messages. *)
Lemma handleFailedLogin_throws ip email reason w e :
  fst (handleFailedLogin ip email reason w) = Throw e →
  ∃ m, e = AuthError m INVALID_CREDENTIALS None
       ∧ (m = lockout_message
          ∨ m = invalid_credentials_warning 1
          ∨ m = invalid_credentials_warning 2).
Proof.
  destruct (incrementAttempt_returns ip (toLowerCase email) w) as [n Hn].
  rewrite (handleFailedLogin_outcome _ _ reason _ _ Hn).
  destruct (Z.leb_spec (5 - n) 0);
    [intros [= <-]; eexists; split; [done|by left]|].
  destruct (Z.leb_spec (5 - n) 2); [|done].
  intros [= <-]. eexists. split; [done|]. right.
  assert (5 - n = 1 ∨ 5 - n = 2) as [-> | ->] by lia; [by left|by right].
Qed.

(** The trace after [incrementAttempt] extends the trace before it. *)
Lemma incrementAttempt_trace_extends ip identifier w :
  ∃ rest, trace (snd (incrementAttempt ip identifier w)) = trace w ++ rest.
Proof.
  unfold incrementAttempt, rpc_increment_failed_attempts. run_promise.
  destruct (TimeClip (now w)) as [t|]; simpl; [|by eexists].
  destruct (attempts_rpc w); simpl.
  - destruct (increment_failed_attempts _ _ _ _); simpl. by eexists.
  - eexists. by rewrite <- app_assoc.
  - eexists. by rewrite <- app_assoc.
Qed.

(** The handler leaves the users, the cookies, the clock and the fault
    modes alone, and its table is the one [incrementAttempt] left. *)
Lemma handleFailedLogin_frame ip email reason w :
  let w' := snd (handleFailedLogin ip email reason w) in
  failed_attempts w'
  = failed_attempts (snd (incrementAttempt ip (toLowerCase email) w))
  ∧ users w' = users w ∧ now w' = now w ∧ cookies w' = cookies w
  ∧ trace w'
    = trace (snd (incrementAttempt ip (toLowerCase email) w))
      ++ [login_failed_event ip email reason
            (match fst (incrementAttempt ip (toLowerCase email) w) with
             | Return n => n
             | Throw _ => 0
             end)].
Proof.
  destruct (handleFailedLogin_world ip email reason w)
    as (n & w1 & Hrun & ->).
  pose proof (incrementAttempt_frame ip (toLowerCase email) w) as Hfr.
  rewrite Hrun in *. simpl in *.
  destruct Hfr as (Hus & Hnow & _ & _ & _ & Hck). by repeat split.
Qed.

(** The handler always reaches the audit sink, also when it goes on to
    throw: its trace is the one after [incrementAttempt] plus one
    LOGIN_FAILED event, which carries the e-mail as typed, the reason and
    the count just returned (0 during an outage). *)
Theorem handleFailedLogin_always_audits ip email reason w :
  ∃ attempts,
    fst (incrementAttempt ip (toLowerCase email) w) = Return attempts
    ∧ trace (snd (handleFailedLogin ip email reason w))
      = trace (snd (incrementAttempt ip (toLowerCase email) w))
        ++ [AuditEvent "LOGIN_FAILED"
              {| ad_userId := None; ad_email := email;
                 ad_reason := Some reason; ad_ipAddress := ip;
                 ad_attemptCount := Some attempts |}].
Proof.
  destruct (handleFailedLogin_world ip email reason w)
    as (n & w1 & Hrun & ->).
  exists n. by rewrite Hrun.
Qed.

(** Whatever the handler throws is an [AuthError] with the
    invalid-credentials code, and its message is the lockout text or the
    warning for 1 or 2 remaining attempts; other errors never leave it. *)
Theorem handleFailedLogin_throws_invalid_credentials ip email reason w e :
  fst (handleFailedLogin ip email reason w) = Throw e →
  instanceof_AuthError e = true
  ∧ error_code e = Some INVALID_CREDENTIALS
  ∧ (error_message e = lockout_message
     ∨ error_message e = invalid_credentials_warning 1
     ∨ error_message e = invalid_credentials_warning 2).
Proof.
  intros Hthrow.
  destruct (handleFailedLogin_throws _ _ _ _ _ Hthrow) as (m & -> & Hm).
  by repeat split.
Qed.

End CountingMore.

(** ** The paths of [login] *)

Section LoginPaths.
Context `{Collaborators}.

Implicit Types (w : World) (input : LoginInput).

(** The pre-check throws: [login] ends in its catch block at once. *)
Lemma login_precheck_throw input w e w1 :
  checkRateLimit (client_ip w) (toLowerCase (in_email input)) w
  = (Throw e, w1) →
  login input w = login_catch e w1.
Proof.
  intros Hck. unfold login, try_catch, bind, getClientIp. rewrite Hck.
  unfold login_catch. run_promise. simpl.
  by destruct (instanceof_AuthError e).
Qed.

(** The user query rejects: the catch block wraps the error. *)
Lemma login_query_rejects input w w1 err :
  checkRateLimit (client_ip w) (toLowerCase (in_email input)) w
  = (Return tt, w1) →
  users_store w = Rejects err →
  login input w =
  login_catch (Error err)
    (emit (SelectUser (toLowerCase (in_email input))) w1).
Proof.
  intros Hck Hst.
  pose proof (checkRateLimit_frame_all
                (client_ip w) (toLowerCase (in_email input)) w) as Hfr.
  rewrite Hck in Hfr. simpl in Hfr.
  destruct Hfr as (_ & _ & _ & _ & _ & _ & Hst1 & _).
  unfold login, try_catch, bind, getClientIp. rewrite Hck.
  unfold select_user. rewrite Hst1, Hst.
  unfold login_catch. by run_promise.
Qed.

(** The credentials are rejected: the handler runs on the world after the
    user query, and the catch block gets what the handler threw, or else
    the generic error. *)
Lemma login_credentials_rejected input w w1 o w3 :
  checkRateLimit (client_ip w) (toLowerCase (in_email input)) w
  = (Return tt, w1) →
  credentials_rejected input w →
  handleFailedLogin (client_ip w) (in_email input)
    (rejection_reason input w)
    (emit (SelectUser (toLowerCase (in_email input))) w1) = (o, w3) →
  login input w =
  login_catch (match o with
               | Throw e => e
               | Return _ => invalid_email_or_password
               end) w3.
Proof.
  intros Hck Hrej Hh.
  pose proof (checkRateLimit_frame_all
                (client_ip w) (toLowerCase (in_email input)) w) as Hfr.
  rewrite Hck in Hfr. simpl in Hfr.
  destruct Hfr as (_ & Hus & _ & _ & _ & _ & Hst1 & _).
  unfold credentials_rejected in Hrej. unfold rejection_reason in Hh.
  unfold login, try_catch, bind, getClientIp. rewrite Hck.
  unfold select_user. rewrite Hst1, Hus.
  destruct (users_store w) as [|err|err]; [|simpl|done].
  - destruct (users w !! toLowerCase (in_email input)) as [u|]; simpl.
    + rewrite bool_decide_true by done.
      unfold bind. rewrite Hh. unfold login_catch. run_promise.
      destruct o as [[]|e]; simpl; [done|].
      by destruct (instanceof_AuthError e).
    + unfold bind. rewrite Hh. unfold login_catch. run_promise.
      destruct o as [[]|e]; simpl; [done|].
      by destruct (instanceof_AuthError e).
  - unfold bind. rewrite Hh. unfold login_catch. run_promise.
    destruct o as [[]|e]; simpl; [done|].
    by destruct (instanceof_AuthError e).
Qed.

(** The credentials match and the clock is a valid date: the session is
    returned, after the cookie, the audit event and the [last_login]
    stamp. *)
Lemma login_accepted input w w1 u t :
  checkRateLimit (client_ip w) (toLowerCase (in_email input)) w
  = (Return tt, w1) →
  users_store w = Healthy →
  users w !! toLowerCase (in_email input) = Some u →
  password_hash u = hashPassword (in_password input) →
  TimeClip (now w) = Some t →
  let tokens := generateTokens (token_payload_of u) (in_deviceInfo input) in
  login input w =
  (Return {| ar_user := session_of u; ar_tokens := tokens |},
   set_users (stamp_last_login (id u) t (users w))
     (emit (UpdateLastLogin (id u) t)
        (emit (login_success_event (client_ip w) u)
           (set_cookies (Some tokens)
              (emit (SetAuthTokens tokens)
                 (emit (SelectUser (toLowerCase (in_email input)))
                    w1)))))).
Proof.
  intros Hck Hst Hu Hhash Ht tokens.
  pose proof (checkRateLimit_frame_all
                (client_ip w) (toLowerCase (in_email input)) w) as Hfr.
  rewrite Hck in Hfr. simpl in Hfr.
  destruct Hfr as (_ & Hus & Hnow & _ & _ & _ & Hst1 & _).
  unfold login, try_catch, bind, getClientIp. rewrite Hck.
  unfold select_user. rewrite Hst1, Hus, Hst, Hu. simpl.
  rewrite bool_decide_false by (intros Hne; by apply Hne).
  unfold setAuthTokens, update_last_login. run_promise. simpl.
  rewrite Hnow, Ht. simpl. rewrite Hst1, Hst, Hus. done.
Qed.

(** The credentials match but the clock is not a valid date:
    [toISOString] throws after the cookie was set. *)
Lemma login_accepted_bad_clock input w w1 u :
  checkRateLimit (client_ip w) (toLowerCase (in_email input)) w
  = (Return tt, w1) →
  users_store w = Healthy →
  users w !! toLowerCase (in_email input) = Some u →
  password_hash u = hashPassword (in_password input) →
  TimeClip (now w) = None →
  let tokens := generateTokens (token_payload_of u) (in_deviceInfo input) in
  login input w =
  login_catch (Error "RangeError: Invalid time value")
    (emit (login_success_event (client_ip w) u)
       (set_cookies (Some tokens)
          (emit (SetAuthTokens tokens)
             (emit (SelectUser (toLowerCase (in_email input))) w1)))).
Proof.
  intros Hck Hst Hu Hhash Ht tokens.
  pose proof (checkRateLimit_frame_all
                (client_ip w) (toLowerCase (in_email input)) w) as Hfr.
  rewrite Hck in Hfr. simpl in Hfr.
  destruct Hfr as (_ & Hus & Hnow & _ & _ & _ & Hst1 & _).
  unfold login, try_catch, bind, getClientIp. rewrite Hck.
  unfold select_user. rewrite Hst1, Hus, Hst, Hu. simpl.
  rewrite bool_decide_false by (intros Hne; by apply Hne).
  unfold setAuthTokens, update_last_login, login_catch. run_promise. simpl.
  rewrite Hnow, Ht. done.
Qed.

(** Once the pre-check has let the request through, one of three things
    holds: the user query rejects, the credentials are rejected, or a row
    with the right hash is there. *)
Lemma login_credentials_cases input w :
  (∃ err, users_store w = Rejects err)
  ∨ credentials_rejected input w
  ∨ (∃ u, users_store w = Healthy
          ∧ users w !! toLowerCase (in_email input) = Some u
          ∧ password_hash u = hashPassword (in_password input)).
Proof.
  unfold credentials_rejected.
  destruct (users_store w) as [|err|err];
    [|by right; left|by left; exists err].
  destruct (users w !! toLowerCase (in_email input)) as [u|];
    [|by right; left].
  destruct (decide (password_hash u = hashPassword (in_password input)));
    [right; right; by exists u|by right; left].
Qed.

(** What the pre-check throws is an [AuthError]. *)
Lemma checkRateLimit_throws_AuthError ip identifier w e :
  fst (checkRateLimit ip identifier w) = Throw e →
  instanceof_AuthError e = true.
Proof.
  destruct (getCurrentAttempts_returns ip identifier w) as [c Hc].
  rewrite (checkRateLimit_outcome _ _ _ _ Hc).
  destruct (c >=? MAX_ATTEMPTS); [by intros [= <-]|].
  destruct (MAX_ATTEMPTS - c <=? 2); [by intros [= <-]|done].
Qed.

Lemma login_path input w : LoginPath input w.
Proof.
  destruct (checkRateLimit (client_ip w) (toLowerCase (in_email input)) w)
    as [[[]|e] w1] eqn:Hck.
  - destruct (login_credentials_cases input w)
      as [[err Hst] | [Hrej | (u & Hst & Hu & Hhash)]].
    + eapply QueryRejects; eauto using login_query_rejects.
    + destruct (handleFailedLogin (client_ip w) (in_email input)
                  (rejection_reason input w)
                  (emit (SelectUser (toLowerCase (in_email input))) w1))
        as [o w3] eqn:Hh.
      eapply CredentialsRejected; eauto using login_credentials_rejected.
    + destruct (TimeClip (now w)) as [t|] eqn:Ht.
      * eapply Accepted; eauto. by apply login_accepted.
      * eapply AcceptedBadClock; eauto. by apply login_accepted_bad_clock.
  - eapply PrecheckRefuses; eauto using login_precheck_throw.
    apply (checkRateLimit_throws_AuthError
             (client_ip w) (toLowerCase (in_email input)) w).
    by rewrite Hck.
Qed.

End LoginPaths.

(** ** What [login] guarantees *)

Section LoginMore.
Context `{Collaborators}.

Implicit Types (w : World) (input : LoginInput).

Lemma checkRateLimit_admitted_count ip identifier w w1 :
  checkRateLimit ip identifier w = (Return tt, w1) →
  ∃ c, fst (getCurrentAttempts ip identifier w) = Return c ∧ c ≤ 2.
Proof.
  intros Hck.
  destruct (getCurrentAttempts_returns ip identifier w) as [c Hc].
  exists c. split; [done|].
  pose proof (checkRateLimit_outcome _ _ _ _ Hc) as Hout.
  rewrite Hck in Hout. simpl in Hout. unfold MAX_ATTEMPTS in Hout.
  destruct (Z.geb_spec c 5); [done|].
  destruct (Z.leb_spec (5 - c) 2); [done|lia].
Qed.

(** Whatever [login] throws is an [AuthError]: every other error is
    wrapped by the catch block. *)
Theorem login_throws_only_AuthError input w e :
  fst (login input w) = Throw e → instanceof_AuthError e = true.
Proof.
  assert (∀ e0 w0 e', fst (login_catch e0 w0) = Throw e' →
                      instanceof_AuthError e' = true) as Hcatch.
  { intros e0 w0 e'. unfold login_catch. simpl.
    destruct (instanceof_AuthError e0) eqn:He0; by intros [= <-]. }
  destruct (login_path input w)
    as [e0 w1 _ _ -> | w1 err _ _ -> | w1 o w3 _ _ _ ->
        | w1 u t _ _ _ _ _ -> | w1 u _ _ _ _ _ ->];
    [by apply Hcatch..|done|by apply Hcatch].
Qed.

(** [login] returns a session only to a request that the pre-check let
    through, with at most 2 counted failures, and whose password hashes
    to the stored hash of the row with that lowercased e-mail; the
    session and the tokens are built from that row. *)
Theorem login_sound input w r :
  fst (login input w) = Return r →
  ∃ u c,
    fst (getCurrentAttempts (client_ip w) (toLowerCase (in_email input)) w)
    = Return c
    ∧ c ≤ 2
    ∧ users w !! toLowerCase (in_email input) = Some u
    ∧ password_hash u = hashPassword (in_password input)
    ∧ ar_user r = session_of u
    ∧ ar_tokens r
      = generateTokens (token_payload_of u) (in_deviceInfo input).
Proof.
  destruct (login_path input w)
    as [e0 w1 _ _ -> | w1 err _ _ -> | w1 o w3 _ _ _ ->
        | w1 u t Hck _ Hu Hhash _ -> | w1 u _ _ _ _ _ ->];
    [done..| |done].
  intros [= <-].
  destruct (checkRateLimit_admitted_count _ _ _ _ Hck) as (c & Hc & Hle).
  by exists u, c.
Qed.

(** A login that returns a session has put the returned tokens in the
    cookies and has left the failure counter as it was: success does not
    reset the count. *)
Theorem login_success_keeps_counter input w r :
  fst (login input w) = Return r →
  cookies (snd (login input w)) = Some (ar_tokens r)
  ∧ failed_attempts (snd (login input w)) = failed_attempts w
  ∧ rpc_calls (trace (snd (login input w))) = rpc_calls (trace w).
Proof.
  destruct (login_path input w)
    as [e0 w1 _ _ -> | w1 err _ _ -> | w1 o w3 _ _ _ ->
        | w1 u t Hck _ Hu Hhash _ -> | w1 u _ _ _ _ _ ->];
    [done..| |done].
  intros [= <-]. simpl.
  pose proof (checkRateLimit_frame_all
                (client_ip w) (toLowerCase (in_email input)) w) as Hfr.
  pose proof (checkRateLimit_world
                (client_ip w) (toLowerCase (in_email input)) w) as Hw1.
  rewrite Hck in Hfr, Hw1. simpl in Hfr, Hw1.
  destruct Hfr as (Htbl & _). split; [done|]. split; [done|].
  rewrite !rpc_calls_app. simpl. rewrite Hw1.
  rewrite getCurrentAttempts_no_rpc. unfold rpc_calls. simpl. lia.
Qed.

(** The session role is never empty: a missing or empty [role] column
    reads as "user". *)
Theorem login_session_role input w r :
  fst (login input w) = Return r →
  us_role (ar_user r) ≠ ""
  ∧ ∀ u, users w !! toLowerCase (in_email input) = Some u →
         us_role (ar_user r)
         = match role u with
           | Some ρ => if bool_decide (ρ = "") then "user" else ρ
           | None => "user"
           end.
Proof.
  destruct (login_path input w)
    as [e0 w1 _ _ -> | w1 err _ _ -> | w1 o w3 _ _ _ ->
        | w1 u t Hck _ Hu Hhash _ -> | w1 u _ _ _ _ _ ->];
    [done..| |done].
  intros [= <-]. simpl. split.
  - unfold role_or_user. destruct (role u) as [ρ|]; [|done].
    by case_bool_decide.
  - intros u' Hu'. rewrite Hu in Hu'. by injection Hu' as <-.
Qed.

(** The run of the pre-check, when its outcome is known. *)
Lemma checkRateLimit_run ip identifier w o :
  fst (checkRateLimit ip identifier w) = o →
  checkRateLimit ip identifier w
  = (o, snd (getCurrentAttempts ip identifier w)).
Proof.
  intros <-. rewrite <- checkRateLimit_world.
  by destruct (checkRateLimit ip identifier w).
Qed.

Lemma checkRateLimit_admits_upto_two ip identifier w c :
  fst (getCurrentAttempts ip identifier w) = Return c →
  c ≤ 2 →
  fst (checkRateLimit ip identifier w) = Return tt.
Proof.
  intros Hc Hle. rewrite (checkRateLimit_outcome _ _ _ _ Hc).
  unfold MAX_ATTEMPTS.
  destruct (Z.geb_spec c 5); [lia|].
  by destruct (Z.leb_spec (5 - c) 2); [lia|].
Qed.

(** With at most 2 counted failures, a healthy [users] table, a row whose
    hash matches and a valid clock, [login] returns the session of that
    row with freshly generated tokens, and its trace shows the order of
    the work: counter read, user query, cookie, audit event, stamp. *)
Theorem login_complete input w u c :
  let ip := client_ip w in
  let em := toLowerCase (in_email input) in
  let tokens := generateTokens (token_payload_of u) (in_deviceInfo input) in
  fst (getCurrentAttempts ip em w) = Return c →
  c ≤ 2 →
  users_store w = Healthy →
  users w !! em = Some u →
  password_hash u = hashPassword (in_password input) →
  Z.abs (now w) ≤ MAX_TIME_VALUE →
  fst (login input w)
  = Return {| ar_user := session_of u; ar_tokens := tokens |}
  ∧ cookies (snd (login input w)) = Some tokens
  ∧ trace (snd (login input w))
    = trace (snd (getCurrentAttempts ip em w))
      ++ [SelectUser em; SetAuthTokens tokens;
          login_success_event ip u; UpdateLastLogin (id u) (now w)].
Proof.
  intros ip em tokens Hc Hle Hst Hu Hhash Hv.
  pose proof (checkRateLimit_run _ _ _ _
                (checkRateLimit_admits_upto_two _ _ _ _ Hc Hle)) as Hck.
  rewrite (login_accepted input w _ u (now w) Hck Hst Hu Hhash
             (TimeClip_valid _ Hv)).
  simpl. split; [done|]. split; [done|].
  by rewrite <- !app_assoc.
Qed.

(** On that path the [users] table changes in one way only: the rows
    with the id of the matched row get [last_login] set to the current
    time; the matched row is among them, every other row is as before,
    and no row appears or disappears. *)
Theorem login_stamps_last_login input w u c :
  let ip := client_ip w in
  let em := toLowerCase (in_email input) in
  let us' := users (snd (login input w)) in
  fst (getCurrentAttempts ip em w) = Return c →
  c ≤ 2 →
  users_store w = Healthy →
  users w !! em = Some u →
  password_hash u = hashPassword (in_password input) →
  Z.abs (now w) ≤ MAX_TIME_VALUE →
  us' !! em = Some (set_last_login (Some (now w)) u)
  ∧ (∀ k u', users w !! k = Some u' → id u' ≠ id u → us' !! k = Some u')
  ∧ (∀ k, users w !! k = None → us' !! k = None).
Proof.
  intros ip em us' Hc Hle Hst Hu Hhash Hv. subst us'.
  pose proof (checkRateLimit_run _ _ _ _
                (checkRateLimit_admits_upto_two _ _ _ _ Hc Hle)) as Hck.
  rewrite (login_accepted input w _ u (now w) Hck Hst Hu Hhash
             (TimeClip_valid _ Hv)).
  simpl. unfold stamp_last_login. repeat split.
  - rewrite lookup_fmap. fold em. rewrite Hu. simpl.
    by rewrite bool_decide_true.
  - intros k u' Hk Hne. rewrite lookup_fmap, Hk. simpl.
    by rewrite bool_decide_false.
  - intros k Hk. by rewrite lookup_fmap, Hk.
Qed.

(** When the pre-check lets the request through and the user query
    rejects, [login] throws "Failed to log in" with the server-error code
    and the original error inside; nothing is counted. *)
Theorem login_query_failure_is_server_error input w err :
  fst (checkRateLimit (client_ip w) (toLowerCase (in_email input)) w)
  = Return tt →
  users_store w = Rejects err →
  fst (login input w)
  = Throw (AuthError "Failed to log in" SERVER_ERROR (Some (Error err)))
  ∧ failed_attempts (snd (login input w)) = failed_attempts w
  ∧ rpc_calls (trace (snd (login input w))) = rpc_calls (trace w).
Proof.
  intros Hadm Hst.
  pose proof (checkRateLimit_run _ _ _ _ Hadm) as Hck.
  rewrite (login_query_rejects input w _ err Hck Hst). simpl.
  pose proof (getCurrentAttempts_frame
                (client_ip w) (toLowerCase (in_email input)) w)
    as (Htbl & _).
  split; [done|]. split; [done|].
  rewrite !rpc_calls_app, getCurrentAttempts_no_rpc.
  unfold rpc_calls. simpl. lia.
Qed.

(** The run of [login] when the credentials are rejected. *)
Lemma login_rejected_run input w :
  fst (checkRateLimit (client_ip w) (toLowerCase (in_email input)) w)
  = Return tt →
  credentials_rejected input w →
  let w2 := emit (SelectUser (toLowerCase (in_email input)))
              (snd (getCurrentAttempts (client_ip w)
                      (toLowerCase (in_email input)) w)) in
  let run := handleFailedLogin (client_ip w) (in_email input)
               (rejection_reason input w) w2 in
  login input w =
  login_catch (match fst run with
               | Throw e => e
               | Return _ => invalid_email_or_password
               end) (snd run).
Proof.
  intros Hadm Hrej w2 run.
  pose proof (checkRateLimit_run _ _ _ _ Hadm) as Hck.
  apply (login_credentials_rejected input w _ (fst run) (snd run) Hck Hrej).
  apply surjective_pairing.
Qed.

(** Rejected credentials always surface with the invalid-credentials
    code, whether the user is unknown, the query answered with an error,
    or the password is wrong; the message is the generic one, the lockout
    text, or the warning for 1 or 2 remaining attempts. *)
Theorem login_rejection_is_invalid_credentials input w :
  fst (checkRateLimit (client_ip w) (toLowerCase (in_email input)) w)
  = Return tt →
  credentials_rejected input w →
  ∃ m, fst (login input w) = Throw (AuthError m INVALID_CREDENTIALS None)
       ∧ (m = "Invalid email or password"
          ∨ m = lockout_message
          ∨ m = invalid_credentials_warning 1
          ∨ m = invalid_credentials_warning 2).
Proof.
  intros Hadm Hrej. rewrite (login_rejected_run input w Hadm Hrej).
  destruct (handleFailedLogin _ _ _ _) as [[[]|e] w3] eqn:Hh; simpl.
  - eexists. split; [done|]. by left.
  - destruct (handleFailedLogin_throws _ _ _ _ e
                (f_equal fst Hh)) as (m & -> & Hm).
    exists m. split; [done|]. by right.
Qed.

(** A login with rejected credentials counts exactly once: with the
    stored procedure answering and a valid clock, it is called one time,
    on the key of the client address and the lowercased e-mail at the
    current time, and the table after [login] is the table it left. *)
Theorem login_rejection_counts_once input w :
  let ip := client_ip w in
  let em := toLowerCase (in_email input) in
  fst (checkRateLimit ip em w) = Return tt →
  credentials_rejected input w →
  attempts_rpc w = Healthy →
  Z.abs (now w) ≤ MAX_TIME_VALUE →
  failed_attempts (snd (login input w))
  = snd (increment_failed_attempts ip em (now w) (failed_attempts w))
  ∧ rpc_calls (trace (snd (login input w))) = S (rpc_calls (trace w))
  ∧ RpcIncrement ip em (now w) ∈ trace (snd (login input w)).
Proof.
  intros ip em Hadm Hrej Hrpc Hv.
  rewrite (login_rejected_run input w Hadm Hrej). simpl.
  pose proof (getCurrentAttempts_frame ip em w)
    as (Htbl & _ & Hnow & _ & _ & Hrpc1 & _).
  pose proof (getCurrentAttempts_no_rpc ip em w) as Hcalls.
  fold ip em.
  set (w1 := snd (getCurrentAttempts ip em w)) in *.
  set (w2 := emit (SelectUser em) w1).
  assert (incrementAttempt ip em w2 =
          (Return (or_zero (fst (increment_failed_attempts ip em (now w)
                                   (failed_attempts w)))),
           set_failed_attempts
             (snd (increment_failed_attempts ip em (now w)
                     (failed_attempts w)))
             (emit (RpcIncrement ip em (now w)) w2))) as Hinc.
  { rewrite (incrementAttempt_healthy ip em w2 (now w)).
    - simpl. by rewrite Htbl.
    - simpl. by rewrite Hrpc1.
    - simpl. rewrite Hnow. by apply TimeClip_valid. }
  pose proof (handleFailedLogin_frame ip (in_email input)
                (rejection_reason input w) w2) as (Ht & _ & _ & _ & Htr).
  fold em in Ht, Htr. rewrite Hinc in Ht, Htr. simpl in Ht, Htr.
  rewrite Ht, Htr. split; [done|]. split.
  - rewrite !rpc_calls_app, Hcalls. unfold rpc_calls. simpl. lia.
  - set_solver.
Qed.


(** In the model the trace that [login] adds begins with the read of the
    record of the client address and the lowercased e-mail. *)
Lemma login_trace_begins_with_read input w :
  ∃ rest,
    trace (snd (login input w))
    = trace w
      ++ SelectAttempts (client_ip w) (toLowerCase (in_email input))
         :: rest.
Proof.
  destruct (getCurrentAttempts_trace
              (client_ip w) (toLowerCase (in_email input)) w)
    as [rest0 Hread].
  pose proof (checkRateLimit_world
                (client_ip w) (toLowerCase (in_email input)) w) as Hw1.
  destruct (login_path input w)
    as [e0 w1 Hck _ -> | w1 err Hck Hst -> | w1 o w3 Hck Hrej Hh ->
        | w1 u t Hck Hst Hu Hhash Ht -> | w1 u Hck Hst Hu Hhash Ht ->];
    rewrite Hck in Hw1; simpl in Hw1; subst w1; simpl.
  - rewrite Hread. eexists. by rewrite <- app_assoc.
  - rewrite Hread. eexists. by rewrite <- !app_assoc.
  - pose proof (handleFailedLogin_frame (client_ip w) (in_email input)
                  (rejection_reason input w)
                  (emit (SelectUser (toLowerCase (in_email input)))
                     (snd (getCurrentAttempts (client_ip w)
                             (toLowerCase (in_email input)) w))))
      as (_ & _ & _ & _ & Htr).
    rewrite Hh in Htr. simpl in Htr. rewrite Htr.
    destruct (incrementAttempt_trace_extends (client_ip w)
                (toLowerCase (in_email input))
                (emit (SelectUser (toLowerCase (in_email input)))
                   (snd (getCurrentAttempts (client_ip w)
                           (toLowerCase (in_email input)) w))))
      as [rest1 ->].
    simpl. rewrite Hread. eexists. by rewrite <- !app_assoc.
  - rewrite Hread. eexists. by rewrite <- !app_assoc.
  - rewrite Hread. eexists. by rewrite <- !app_assoc.
Qed.

(** Nothing is asked of the database, the cookie service or the audit
    sink before the counter was read: if the trace that [login] adds
    holds anything but console lines, it begins with the read of the
    record of the client address and the lowercased e-mail. *)
Theorem login_reads_counter_first input w :
  ∃ added,
    trace (snd (login input w)) = trace w ++ added
    ∧ (∀ e, e ∈ added → is_console_line e = false →
            ∃ rest,
              added
              = SelectAttempts (client_ip w) (toLowerCase (in_email input))
                :: rest).
Proof.
  destruct (login_trace_begins_with_read input w) as [rest Htrace].
  eexists. split; [exact Htrace|]. intros _ _ _. by exists rest.
Qed.

(** No cookie without a match: unless the [users] table holds, under the
    lowercased e-mail, a row whose hash is the hash of the password,
    [login] leaves the cookies and the [users] table as they were. *)
Theorem login_sets_cookie_only_on_match input w :
  (∀ u, users w !! toLowerCase (in_email input) = Some u →
        password_hash u ≠ hashPassword (in_password input)) →
  cookies (snd (login input w)) = cookies w
  ∧ users (snd (login input w)) = users w.
Proof.
  intros Hnomatch.
  pose proof (checkRateLimit_frame_all
                (client_ip w) (toLowerCase (in_email input)) w) as Hfr.
  destruct (login_path input w)
    as [e0 w1 Hck _ -> | w1 err Hck Hst -> | w1 o w3 Hck Hrej Hh ->
        | w1 u t Hck Hst Hu Hhash Ht -> | w1 u Hck Hst Hu Hhash Ht ->];
    rewrite Hck in Hfr; simpl in Hfr;
    destruct Hfr as (_ & Hus & _ & _ & _ & _ & _ & Hco); simpl.
  - done.
  - done.
  - pose proof (handleFailedLogin_frame (client_ip w) (in_email input)
                  (rejection_reason input w)
                  (emit (SelectUser (toLowerCase (in_email input))) w1))
      as (_ & Hu3 & _ & Hc3 & _).
    rewrite Hh in Hu3, Hc3. simpl in Hu3, Hc3. by rewrite Hu3, Hc3.
  - by destruct (Hnomatch u Hu).
  - by destruct (Hnomatch u Hu).
Qed.

(** When the pre-check refuses, [login] throws the very error of the
    pre-check and does nothing else: no user query, no count, no cookie. *)
Theorem login_refused_by_precheck input w e :
  fst (checkRateLimit (client_ip w) (toLowerCase (in_email input)) w)
  = Throw e →
  fst (login input w) = Throw e
  ∧ trace (snd (login input w))
    = trace (snd (getCurrentAttempts (client_ip w)
                    (toLowerCase (in_email input)) w))
      ++ [ConsoleError "Login error:" e]
  ∧ failed_attempts (snd (login input w)) = failed_attempts w
  ∧ users (snd (login input w)) = users w
  ∧ cookies (snd (login input w)) = cookies w.
Proof.
  intros Hthrow.
  pose proof (checkRateLimit_throws_AuthError _ _ _ _ Hthrow) as He.
  rewrite (login_rethrows_precheck input w e Hthrow He).
  rewrite checkRateLimit_world. simpl.
  pose proof (getCurrentAttempts_frame
                (client_ip w) (toLowerCase (in_email input)) w)
    as (Htbl & Hus & _ & _ & _ & _ & _ & Hco).
  by repeat split.
Qed.

End LoginMore.

(** ** The two sets of thresholds, and what a refusal reveals *)

Section LoginSecrecy.
Context `{Collaborators}.

Implicit Types (w : World) (input : LoginInput).

(** The count that the read returns depends on the store, its fault mode
    and the clock only. *)
Lemma getCurrentAttempts_ext ip identifier wA wB :
  attempts_read wA = attempts_read wB →
  failed_attempts wA = failed_attempts wB →
  now wA = now wB →
  fst (getCurrentAttempts ip identifier wA)
  = fst (getCurrentAttempts ip identifier wB).
Proof.
  intros Hf Ht Hn.
  unfold getCurrentAttempts, select_failed_attempt. run_promise.
  rewrite Hf, Ht.
  destruct (attempts_read wB); simpl; [|done..].
  destruct (failed_attempts wB !! (ip, identifier)); simpl; [|done].
  rewrite Hn. by destruct (date_gt _ _).
Qed.

(** So does the count that [incrementAttempt] returns. *)
Lemma incrementAttempt_ext ip identifier wA wB :
  attempts_rpc wA = attempts_rpc wB →
  failed_attempts wA = failed_attempts wB →
  now wA = now wB →
  fst (incrementAttempt ip identifier wA)
  = fst (incrementAttempt ip identifier wB).
Proof.
  intros Hf Ht Hn.
  unfold incrementAttempt, rpc_increment_failed_attempts. run_promise.
  rewrite Hn.
  destruct (TimeClip (now wB)); simpl; [|done].
  rewrite Hf, Ht.
  destruct (attempts_rpc wB); simpl; [|done..].
  by destruct (increment_failed_attempts _ _ _ _).
Qed.

(** The pre-check and the handler draw the same lines: on one and the
    same count, the pre-check blocks exactly when the handler answers
    with the lockout text, the pre-check warns exactly when the handler
    warns, both with the same number of remaining attempts, and the
    pre-check passes exactly when the handler is silent. *)
Theorem thresholds_agree ip identifier email reason w w' n :
  fst (getCurrentAttempts ip identifier w) = Return n →
  fst (incrementAttempt ip (toLowerCase email) w') = Return n →
  (fst (checkRateLimit ip identifier w) = Throw TooManyAttempts
   ↔ fst (handleFailedLogin ip email reason w')
     = Throw (AuthError lockout_message INVALID_CREDENTIALS None))
  ∧ (fst (checkRateLimit ip identifier w)
     = Throw (AttemptsRemainingWarning (MAX_ATTEMPTS - n))
     ↔ fst (handleFailedLogin ip email reason w')
       = Throw (AuthError (invalid_credentials_warning (MAX_ATTEMPTS - n))
                          INVALID_CREDENTIALS None))
  ∧ (fst (checkRateLimit ip identifier w) = Return tt
     ↔ fst (handleFailedLogin ip email reason w') = Return tt).
Proof.
  intros Hread Hinc.
  rewrite (checkRateLimit_outcome _ _ _ _ Hread).
  rewrite (handleFailedLogin_outcome _ _ reason _ _ Hinc).
  unfold MAX_ATTEMPTS.
  assert (∀ k, lockout_message ≠ invalid_credentials_warning k) as Hmsg.
  { intros k. unfold lockout_message, invalid_credentials_warning.
    simpl. discriminate. }
  destruct (Z.geb_spec n 5); destruct (Z.leb_spec (5 - n) 0); try lia;
    [|destruct (Z.leb_spec (5 - n) 2)];
    repeat split; try done;
    intros [= Hm]; by destruct (Hmsg (5 - n)).
Qed.

(** A refusal does not tell whether the e-mail is registered: with the
    [users] table answering, a request for an e-mail without a row gets
    the outcome it would get if a row with another password were there. *)
Theorem login_hides_unknown_user input w u :
  let em := toLowerCase (in_email input) in
  users_store w = Healthy →
  users w !! em = None →
  password_hash u ≠ hashPassword (in_password input) →
  fst (login input w)
  = fst (login input (set_users (<[em := u]> (users w)) w)).
Proof.
  intros em Hst Hnone Hhash.
  set (wB := set_users (<[em := u]> (users w)) w).
  assert (client_ip wB = client_ip w) as Hip by done.
  assert (fst (checkRateLimit (client_ip w) em wB)
          = fst (checkRateLimit (client_ip w) em w)) as Hsame.
  { destruct (getCurrentAttempts_returns (client_ip w) em w) as [c Hc].
    pose proof Hc as HcB.
    rewrite (getCurrentAttempts_ext _ _ w wB) in HcB by done.
    by rewrite (checkRateLimit_outcome _ _ _ _ Hc),
               (checkRateLimit_outcome _ _ _ _ HcB). }
  destruct (fst (checkRateLimit (client_ip w) em w)) as [[]|e] eqn:Hck.
  - assert (credentials_rejected input w) as HrejA.
    { unfold credentials_rejected. fold em. by rewrite Hst, Hnone. }
    assert (credentials_rejected input wB) as HrejB.
    { unfold credentials_rejected. fold em. simpl.
      by rewrite Hst, lookup_insert_eq. }
    rewrite <- Hip in Hsame.
    rewrite (login_rejected_run input w Hck HrejA).
    rewrite (login_rejected_run input wB Hsame HrejB).
    simpl. fold em.
    pose proof (getCurrentAttempts_frame (client_ip w) em w)
      as (HtA & _ & HnA & _ & _ & HrA & _).
    pose proof (getCurrentAttempts_frame (client_ip w) em wB)
      as (HtB & _ & HnB & _ & _ & HrB & _).
    set (w2A := emit (SelectUser em)
                  (snd (getCurrentAttempts (client_ip w) em w))).
    set (w2B := emit (SelectUser em)
                  (snd (getCurrentAttempts (client_ip w) em wB))).
    destruct (incrementAttempt_returns (client_ip w) em w2A) as [n Hn].
    pose proof Hn as HnB'.
    rewrite (incrementAttempt_ext _ _ w2A w2B) in HnB'.
    + rewrite (handleFailedLogin_outcome _ _ (rejection_reason input w)
                 _ _ Hn).
      by rewrite (handleFailedLogin_outcome _ _ (rejection_reason input wB)
                    _ _ HnB').
    + simpl. by rewrite HrA, HrB.
    + simpl. by rewrite HtA, HtB.
    + simpl. by rewrite HnA, HnB.
  - pose proof (checkRateLimit_throws_AuthError _ _ _ _ Hck) as He.
    rewrite (login_rethrows_precheck input w e Hck He).
    rewrite <- Hip in Hsame.
    by rewrite (login_rethrows_precheck input wB e Hsame He).
Qed.

(** What the caller cannot see, the audit sink is told. A login with
    rejected credentials ends its trace with exactly two entries after
    the run of [incrementAttempt]: one LOGIN_FAILED event, then the
    logged error that [login] throws. The event carries the e-mail as
    typed, the client address, the very count that [incrementAttempt]
    returned on that run, and the reason, "Invalid password" when the
    query found a row and "User not found" otherwise; it is the only
    event that this login hands to the audit sink. *)
Theorem login_rejection_is_audited input w :
  let ip := client_ip w in
  let em := toLowerCase (in_email input) in
  let w2 := emit (SelectUser em) (snd (getCurrentAttempts ip em w)) in
  fst (checkRateLimit ip em w) = Return tt →
  credentials_rejected input w →
  ∃ attempts e,
    fst (incrementAttempt ip em w2) = Return attempts
    ∧ fst (login input w) = Throw e
    ∧ trace (snd (login input w))
      = trace (snd (incrementAttempt ip em w2))
        ++ [AuditEvent "LOGIN_FAILED"
              {| ad_userId := None; ad_email := in_email input;
                 ad_reason :=
                   Some (match users_store w, users w !! em with
                         | Healthy, Some _ => "Invalid password"
                         | _, _ => "User not found"
                         end);
                 ad_ipAddress := ip; ad_attemptCount := Some attempts |};
            ConsoleError "Login error:" e]
    ∧ audit_events (trace (snd (login input w)))
      = S (audit_events (trace w)).
Proof.
  intros ip em w2 Hadm Hrej.
  rewrite (login_rejected_run input w Hadm Hrej).
  fold ip em w2.
  destruct (handleFailedLogin_world ip (in_email input)
              (rejection_reason input w) w2)
    as (n & w1 & Hrun & Hw).
  fold em in Hrun.
  pose proof (incrementAttempt_no_audit ip em w2) as Hinc.
  pose proof (getCurrentAttempts_no_audit ip em w) as Hread.
  assert (∃ e', match fst (handleFailedLogin ip (in_email input)
                             (rejection_reason input w) w2) with
                | Throw e => e
                | Return _ => invalid_email_or_password
                end = e'
                ∧ instanceof_AuthError e' = true) as (e' & -> & Hauth).
  { destruct (fst (handleFailedLogin ip (in_email input)
                     (rejection_reason input w) w2)) as [[]|e0] eqn:Hf.
    - by eexists.
    - destruct (handleFailedLogin_throws _ _ _ _ _ Hf) as (m & -> & _).
      by eexists. }
  unfold login_catch. simpl. rewrite Hauth, Hw, Hrun. simpl.
  exists n, e'. split; [done|]. split; [done|]. split.
  - unfold login_failed_event, rejection_reason. fold em.
    by rewrite <- app_assoc.
  - rewrite Hrun in Hinc. simpl in Hinc.
    rewrite !audit_events_app, Hinc. subst w2. simpl.
    rewrite audit_events_app, Hread. unfold audit_events. simpl. lia.
Qed.

End LoginSecrecy.

(** ** The further properties on the concrete deployment *)

Section MoreScenarios.

#[local] Existing Instance sample_collaborators.

Lemma checkRateLimit_admits_unknown_key_witness :
  fst (getCurrentAttempts "1.2.3.4" "a@b.com" (fresh_world 1000)) = Return 0
  ∧ fst (checkRateLimit "1.2.3.4" "a@b.com" (fresh_world 1000)) = Return tt.
Proof.
  apply (checkRateLimit_admits_unknown_key
           "1.2.3.4" "a@b.com" (fresh_world 1000)).
  vm_compute. reflexivity.
Defined.

Lemma incrementAttempt_null_data_is_silent_witness :
  fst (incrementAttempt (H := null_data_collaborators)
         "1.2.3.4" "a@b.com" (world_with 120000 (failures 4))) = Return 0
  ∧ trace (snd (incrementAttempt (H := null_data_collaborators)
                  "1.2.3.4" "a@b.com" (world_with 120000 (failures 4))))
    = trace (world_with 120000 (failures 4))
      ++ [RpcIncrement "1.2.3.4" "a@b.com"
            (now (world_with 120000 (failures 4)))].
Proof.
  apply (incrementAttempt_null_data_is_silent
           (H := null_data_collaborators)
           "1.2.3.4" "a@b.com" (world_with 120000 (failures 4)));
    vm_compute; first [reflexivity | discriminate].
Defined.

Lemma handleFailedLogin_throws_invalid_credentials_witness :
  let e := AuthError lockout_message "auth/invalid-credentials" None in
  instanceof_AuthError e = true
  ∧ error_code e = Some INVALID_CREDENTIALS
  ∧ (error_message e = lockout_message
     ∨ error_message e = invalid_credentials_warning 1
     ∨ error_message e = invalid_credentials_warning 2).
Proof.
  apply (handleFailedLogin_throws_invalid_credentials
           "1.2.3.4" "A@b.com" "Invalid password"
           (world_with 120000 (failures 4))).
  vm_compute. reflexivity.
Defined.

Lemma login_throws_only_AuthError_witness :
  instanceof_AuthError
    (AuthError "Failed to log in" "auth/server-error"
               (Some (Error "fetch failed"))) = true.
Proof.
  apply (login_throws_only_AuthError
           (login_as_alice "secret")
           (users_store_down (world_with 120000 (failures 1)))).
  vm_compute. reflexivity.
Defined.

(** The session that Alice gets. *)
Lemma login_sound_witness :
  let w := world_with 120000 (failures 2) in
  let r := {| ar_user := session_of alice;
              ar_tokens := generateTokens (token_payload_of alice) None |} in
  ∃ u c,
    fst (getCurrentAttempts "1.2.3.4" "a@b.com" w) = Return c
    ∧ c ≤ 2
    ∧ users w !! "a@b.com" = Some u
    ∧ password_hash u = hashPassword "secret"
    ∧ ar_user r = session_of u
    ∧ ar_tokens r = generateTokens (token_payload_of u) None.
Proof.
  refine (login_sound (login_as_alice "secret")
            (world_with 120000 (failures 2))
            {| ar_user := session_of alice;
               ar_tokens := generateTokens (token_payload_of alice) None |}
            _).
  vm_compute. reflexivity.
Defined.

Lemma login_success_keeps_counter_witness :
  let w := world_with 120000 (failures 2) in
  cookies (snd (login (login_as_alice "secret") w))
  = Some (generateTokens (token_payload_of alice) None)
  ∧ failed_attempts (snd (login (login_as_alice "secret") w))
    = failed_attempts w
  ∧ rpc_calls (trace (snd (login (login_as_alice "secret") w)))
    = rpc_calls (trace w).
Proof.
  apply (login_success_keeps_counter
           (login_as_alice "secret") (world_with 120000 (failures 2))
           {| ar_user := session_of alice;
              ar_tokens := generateTokens (token_payload_of alice) None |}).
  vm_compute. reflexivity.
Defined.

Lemma login_session_role_witness :
  us_role (session_of alice) ≠ "".
Proof.
  apply (login_session_role
           (login_as_alice "secret") (world_with 120000 (failures 2))
           {| ar_user := session_of alice;
              ar_tokens := generateTokens (token_payload_of alice) None |}).
  vm_compute. reflexivity.
Defined.

Lemma login_complete_witness :
  fst (login (login_as_alice "secret") (world_with 120000 (failures 2)))
  = Return {| ar_user := session_of alice;
              ar_tokens := generateTokens (token_payload_of alice) None |}.
Proof.
  apply (login_complete
           (login_as_alice "secret") (world_with 120000 (failures 2))
           alice 2);
    vm_compute; first [reflexivity | discriminate].
Defined.

Lemma login_stamps_last_login_witness :
  users (snd (login (login_as_alice "secret")
                (world_with 120000 (failures 2)))) !! "a@b.com"
  = Some (set_last_login (Some 120000) alice).
Proof.
  refine (proj1 (login_stamps_last_login
                   (login_as_alice "secret")
                   (world_with 120000 (failures 2)) alice 2 _ _ _ _ _ _));
    vm_compute; first [reflexivity | discriminate].
Defined.

Lemma login_query_failure_is_server_error_witness :
  fst (login (login_as_alice "secret")
         (users_store_down (world_with 120000 (failures 1))))
  = Throw (AuthError "Failed to log in" "auth/server-error"
                     (Some (Error "fetch failed"))).
Proof.
  refine (proj1 (login_query_failure_is_server_error
                   (login_as_alice "secret")
                   (users_store_down (world_with 120000 (failures 1)))
                   "fetch failed" _ _));
    vm_compute; reflexivity.
Defined.

Lemma login_rejection_is_invalid_credentials_witness :
  ∃ m,
    fst (login (login_as_alice "wrong") (world_with 120000 (failures 1)))
    = Throw (AuthError m "auth/invalid-credentials" None)
    ∧ (m = "Invalid email or password"
       ∨ m = lockout_message
       ∨ m = invalid_credentials_warning 1
       ∨ m = invalid_credentials_warning 2).
Proof.
  refine (login_rejection_is_invalid_credentials
            (login_as_alice "wrong") (world_with 120000 (failures 1)) _ _);
    vm_compute; first [reflexivity | discriminate].
Defined.

Lemma login_rejection_counts_once_witness :
  let w := world_with 120000 (failures 1) in
  failed_attempts (snd (login (login_as_alice "wrong") w))
  = snd (spec_increment_failed_attempts "1.2.3.4" "a@b.com" 120000
           (failed_attempts w))
  ∧ rpc_calls (trace (snd (login (login_as_alice "wrong") w))) = 1%nat
  ∧ RpcIncrement "1.2.3.4" "a@b.com" 120000
    ∈ trace (snd (login (login_as_alice "wrong") w)).
Proof.
  refine (login_rejection_counts_once
            (login_as_alice "wrong") (world_with 120000 (failures 1))
            _ _ _ _);
    vm_compute; first [reflexivity | discriminate].
Defined.


Lemma login_sets_cookie_only_on_match_witness :
  let w := world_with 120000 (failures 1) in
  cookies (snd (login (login_as_alice "wrong") w)) = cookies w
  ∧ users (snd (login (login_as_alice "wrong") w)) = users w.
Proof.
  apply (login_sets_cookie_only_on_match
           (login_as_alice "wrong") (world_with 120000 (failures 1))).
  intros u Hu. vm_compute in Hu. injection Hu as <-.
  vm_compute. discriminate.
Defined.

Lemma login_refused_by_precheck_witness :
  fst (login (login_as_alice "secret") (world_with 120000 (failures 5)))
  = Throw TooManyAttempts.
Proof.
  apply (login_refused_by_precheck
           (login_as_alice "secret") (world_with 120000 (failures 5))).
  vm_compute. reflexivity.
Defined.

Lemma thresholds_agree_witness :
  fst (checkRateLimit "1.2.3.4" "a@b.com" (world_with 120000 (failures 5)))
  = Throw TooManyAttempts
  ↔ fst (handleFailedLogin "1.2.3.4" "A@b.com" "Invalid password"
           (world_with 120000 (failures 4)))
    = Throw (AuthError lockout_message INVALID_CREDENTIALS None).
Proof.
  refine (proj1 (thresholds_agree
                   "1.2.3.4" "a@b.com" "A@b.com" "Invalid password"
                   (world_with 120000 (failures 5))
                   (world_with 120000 (failures 4)) 5 _ _));
    vm_compute; reflexivity.
Defined.

Lemma login_hides_unknown_user_witness :
  let w := set_users ∅ (fresh_world 1000) in
  fst (login (login_as_alice "wrong") w)
  = fst (login (login_as_alice "wrong")
           (set_users (<["a@b.com" := alice]> (users w)) w)).
Proof.
  refine (login_hides_unknown_user
            (login_as_alice "wrong") (set_users ∅ (fresh_world 1000))
            alice _ _ _);
    vm_compute; first [reflexivity | discriminate].
Defined.

Lemma login_rejection_is_audited_witness :
  let w := world_with 120000 (failures 1) in
  let w2 := emit (SelectUser "a@b.com")
              (snd (getCurrentAttempts "1.2.3.4" "a@b.com" w)) in
  ∃ attempts e,
    fst (incrementAttempt "1.2.3.4" "a@b.com" w2) = Return attempts
    ∧ fst (login (login_as_alice "wrong") w) = Throw e
    ∧ trace (snd (login (login_as_alice "wrong") w))
      = trace (snd (incrementAttempt "1.2.3.4" "a@b.com" w2))
        ++ [AuditEvent "LOGIN_FAILED"
              {| ad_userId := None; ad_email := "A@b.com";
                 ad_reason := Some "Invalid password";
                 ad_ipAddress := "1.2.3.4";
                 ad_attemptCount := Some attempts |};
            ConsoleError "Login error:" e]
    ∧ audit_events (trace (snd (login (login_as_alice "wrong") w)))
      = 1%nat.
Proof.
  refine (login_rejection_is_audited
            (login_as_alice "wrong") (world_with 120000 (failures 1)) _ _);
    vm_compute; first [reflexivity | discriminate].
Defined.

End MoreScenarios.
